(** * A TF-IDF search engine over an inverted index: model and properties

    Shallow embedding of [main.py]: the tokenizer wrapper [preprocess], the
    index builder [build_inverted_index] and the query engine [search].

    Modelling choices.
    - A Python [str] is a [string], one [ascii] for each code point (the
      model takes the code points below 256); a [list] is a [list]; a
      [dict] or [defaultdict] is an association list with pairwise distinct
      keys kept in insertion order, the order Python iterates it in.
    - A Python [float] is a real number: scores are computed in exact
      arithmetic, [math.log] is [ln].
    - [jieba.cut] and the stop-word file are outside the repository: they
      are the parameters [cut] and [stopwords] of the development (the file
      is taken to exist, so that reading it does not raise).
    - Exceptions are values of [exn]; code that may raise returns a
      [result]. *)

From Stdlib Require Import String Ascii List Arith Bool Lia.
From Stdlib Require Import Permutation Sorted DecimalString DecimalNat.
From Stdlib Require Import Reals Lra.
Import ListNotations.

Local Set Warnings "-notation-for-abbreviation".

Local Open Scope string_scope.
Local Open Scope list_scope.

(** ** Python values used by the engine *)

(** The built-in exceptions that the modelled code can raise. *)
Inductive exn : Type :=
| ZeroDivisionError
| ValueError
| StopIteration
| AttributeError
| TypeError.


Inductive result (A : Type) : Type :=
| Ok (a : A)
| Raise (e : exn).

Arguments Ok {A} a.
Arguments Raise {A} e.

Module Res.

(** A loop whose body may raise: it stops at the first exception. *)
Fixpoint for_each {A S : Type} (l : list A) (body : S -> A -> result S) (s : S)
  : result S :=
  match l with
  | [] => Ok s
  | x :: l' =>
      match body s x with
      | Ok s' => for_each l' body s'
      | Raise e => Raise e
      end
  end.

End Res.

(** ** Strings *)

Module Str.

(** [str(n)] for a non-negative [int], as an f-string formats it. *)
Definition of_nat (n : nat) : string :=
  NilEmpty.string_of_uint (Nat.to_uint n).

(** [x in l] for a list (or set) of strings. *)
Definition mem (x : string) (l : list string) : bool :=
  existsb (String.eqb x) l.

(** [c.isspace()] for a code point below 256: tab, line feed, vertical
    tab, form feed, carriage return (9..13), the four separators 28..31,
    the space (32), next line (133) and the no-break space (160). *)
Definition is_space (c : ascii) : bool :=
  let n := nat_of_ascii c in
  ((9 <=? n)%nat && (n <=? 13)%nat) || ((28 <=? n)%nat && (n <=? 32)%nat)
  || (n =? 133)%nat || (n =? 160)%nat.

(** Truth value of [s.strip()]: some character is not white space. *)
Fixpoint strip_nonempty (s : string) : bool :=
  match s with
  | EmptyString => false
  | String c s' => negb (is_space c) || strip_nonempty s'
  end.

(** [s.startswith(p)]. *)
Fixpoint startswith (p s : string) : bool :=
  match p, s with
  | EmptyString, _ => true
  | String _ _, EmptyString => false
  | String a p', String b s' => Ascii.eqb a b && startswith p' s'
  end.

(** Left-to-right scan of [s.count(sub)] for a non-empty [sub]; [skip] is
    the number of characters still covered by the last match. *)
Fixpoint count_scan (sub s : string) (skip : nat) : nat :=
  match s with
  | EmptyString => 0
  | String _ s' =>
      match skip with
      | S k => count_scan sub s' k
      | O =>
          if startswith sub s
          then S (count_scan sub s' (String.length sub - 1))
          else count_scan sub s' 0
      end
  end.

(** [s.count(sub)]: the number of non-overlapping occurrences of [sub] in
    [s]; the empty string occurs [len(s) + 1] times. *)
Definition count (s sub : string) : nat :=
  match sub with
  | EmptyString => S (String.length s)
  | String _ _ => count_scan sub s 0
  end.

End Str.

(** ** Dictionaries *)

Module Dict.
Section Dict.

Context {V : Type}.

Definition t : Type := list (string * V).

(** [d.get(k)]. *)
Fixpoint get (d : t) (k : string) : option V :=
  match d with
  | [] => None
  | (k', v) :: d' => if String.eqb k' k then Some v else get d' k
  end.

(** [k in d]. *)
Definition mem (d : t) (k : string) : bool :=
  match get d k with
  | Some _ => true
  | None => false
  end.

(** [d[k] = v]: an existing key keeps its position, a new key goes last. *)
Fixpoint set (d : t) (k : string) (v : V) : t :=
  match d with
  | [] => [(k, v)]
  | (k', v') :: d' =>
      if String.eqb k' k then (k', v) :: d' else (k', v') :: set d' k v
  end.

(** [d.keys()] and [d.items()], in insertion order. *)
Definition keys (d : t) : list string := map fst d.
Definition items (d : t) : list (string * V) := d.

End Dict.
End Dict.

Arguments Dict.t V : clear implicits.

(** [set(l)] followed by iteration: the distinct elements of [l].  Python
    leaves the iteration order of a set unspecified; the model takes the
    order of first occurrence.  The only loop over a set ([build], one
    [append] per distinct token) touches a different key at each iteration,
    so the order decides nothing but the position of new keys in the index,
    which nothing reads. *)
Fixpoint py_set (l : list string) : list string :=
  match l with
  | [] => []
  | x :: l' => x :: filter (fun y => negb (String.eqb x y)) (py_set l')
  end.

(** ** The engine *)

(** The inverted index ([defaultdict(list)]): token to postings list. *)
Definition inverted_index : Type := Dict.t (list string).

(** The document list: [(full_doc_id, content)] pairs. *)
Definition document_list : Type := list (string * string).

(** The corpus: stock code to date to list of news texts. *)
Definition corpus : Type := Dict.t (Dict.t (list string)).

(** ** State and exceptions

    [search] receives the index and the document list by reference.  The two
    objects form the store [heap] that the query code runs against; a
    computation takes the store, returns the store it leaves behind and
    either a value or the exception it raised. *)

Record heap : Type := {
  h_index : inverted_index;
  h_documents : document_list
}.

Module Py.

Definition M (A : Type) : Type := heap -> heap * result A.

Definition ret {A : Type} (a : A) : M A := fun h => (h, Ok a).

Definition bind {A B : Type} (m : M A) (f : A -> M B) : M B :=
  fun h =>
    match m h with
    | (h', Ok a) => f a h'
    | (h', Raise e) => (h', Raise e)
    end.

Definition lift {A : Type} (r : result A) : M A := fun h => (h, r).

(** [for x in l: s = body(s, x)], left at the first exception. *)
Fixpoint for_each {A S : Type} (l : list A) (body : S -> A -> M S) (s : S) : M S :=
  match l with
  | [] => ret s
  | x :: l' => bind (body s x) (for_each l' body)
  end.

End Py.

Notation "x <- m ;; k" := (Py.bind m (fun x => k))
  (at level 61, m at next level, right associativity).

(** [token in index]: a membership test, which reads only. *)
Definition index_contains (token : string) : Py.M bool :=
  fun h => (h, Ok (Dict.mem (h_index h) token)).

(** [index[token]] on a [defaultdict(list)]: a missing key is first bound to
    a fresh empty list ([__missing__]), which changes the index. *)
Definition index_getitem (token : string) : Py.M (list string) :=
  fun h =>
    match Dict.get (h_index h) token with
    | Some postings => (h, Ok postings)
    | None =>
        ({| h_index := Dict.set (h_index h) token [];
            h_documents := h_documents h |}, Ok [])
    end.

(** [len(documents)]. *)
Definition documents_len : Py.M nat :=
  fun h => (h, Ok (length (h_documents h))).

(** First content stored under an id, scanning the list from the front. *)
Fixpoint first_content (documents : document_list) (full_doc_id : string)
  : option string :=
  match documents with
  | [] => None
  | (id, content) :: documents' =>
      if String.eqb id full_doc_id then Some content
      else first_content documents' full_doc_id
  end.

(** [next(doc[1] for doc in documents if doc[0] == full_doc_id)]. *)
Definition documents_next (full_doc_id : string) : Py.M string :=
  fun h =>
    match first_content (h_documents h) full_doc_id with
    | Some content => (h, Ok content)
    | None => (h, Raise StopIteration)
    end.

(** ** Arithmetic *)

(** [a / b] on two non-negative [int]s: true division. *)
Definition true_div (a b : nat) : result R :=
  match b with
  | O => Raise ZeroDivisionError
  | S _ => Ok (INR a / INR b)%R
  end.

(** [math.log(x)]: a domain error outside the positive reals. *)
Definition math_log (x : R) : result R :=
  if Rle_dec x 0 then Raise ValueError else Ok (ln x).

Definition Rltb (x y : R) : bool := if Rlt_dec x y then true else false.

Definition Reqb (x y : R) : bool := if Req_dec_T x y then true else false.

(** ** Scores *)

(** The accumulator [doc_scores], a [defaultdict(float)]. *)
Definition score_table : Type := Dict.t R.

(** [doc_scores[k]]: the default is [0.0]. *)
Definition score_get (doc_scores : score_table) (k : string) : R :=
  match Dict.get doc_scores k with
  | Some v => v
  | None => 0%R
  end.

(** [doc_scores[k] += x]. *)
Definition score_add (doc_scores : score_table) (k : string) (x : R) : score_table :=
  Dict.set doc_scores k (score_get doc_scores k + x)%R.

(** [sorted(items, key=lambda x: x[1], reverse=True)]: a stable sort into
    descending order of score.  An item is placed in front of the first
    item of the sorted rest whose score is not greater than its own, so items
    of equal score keep their order. *)
Fixpoint insert_desc (x : string * R) (l : list (string * R)) : list (string * R) :=
  match l with
  | [] => [x]
  | y :: l' => if Rltb (snd x) (snd y) then y :: insert_desc x l' else x :: y :: l'
  end.

Fixpoint sorted_desc (l : list (string * R)) : list (string * R) :=
  match l with
  | [] => []
  | x :: l' => insert_desc x (sorted_desc l')
  end.

Section Engine.

(** [jieba.cut] in the mode fixed at start-up, and the lines of
    [extra_dict/stopwords.txt]. *)
Variable cut : string -> list string.
Variable stopwords : list string.

(** *** [preprocess] *)

Definition preprocess (text : string) : list string :=
  filter (fun token => Str.strip_nonempty token && negb (Str.mem token stopwords))
         (cut text).

(** *** [build_inverted_index] *)

(** The three local variables of [build_inverted_index]. *)
Record build_state : Type := {
  b_index : inverted_index;
  b_documents : document_list;
  b_seen_docs : list string
}.

(** [index[token].append(full_doc_id)] on a [defaultdict(list)]. *)
Definition append_posting (index : inverted_index) (token full_doc_id : string)
  : inverted_index :=
  match Dict.get index token with
  | Some postings => Dict.set index token (postings ++ [full_doc_id])
  | None => Dict.set index token ([] ++ [full_doc_id])
  end.

(** [f"{stock_code}-{date}-{doc_id}"]. *)
Definition make_doc_id (stock_code date : string) (doc_id : nat) : string :=
  (stock_code ++ "-" ++ date ++ "-" ++ Str.of_nat doc_id)%string.

(** The body of the innermost loop. *)
Definition build_doc (stock_code date : string) (st : build_state)
           (entry : nat * string) : build_state :=
  let (doc_id, content) := entry in
  let full_doc_id := make_doc_id stock_code date doc_id in
  if Str.mem content (b_seen_docs st) then st
  else
    let tokens := preprocess content in
    {| b_seen_docs := b_seen_docs st ++ [content];
       b_documents := b_documents st ++ [(full_doc_id, content)];
       b_index := fold_left (fun index token => append_posting index token full_doc_id)
                            (py_set tokens) (b_index st) |}.

(** [enumerate(l)]. *)
Definition enumerate {A : Type} (l : list A) : list (nat * A) :=
  combine (seq 0 (length l)) l.

Definition build_date (stock_code : string) (st : build_state)
           (entry : string * list string) : build_state :=
  let (date, news_list) := entry in
  fold_left (build_doc stock_code date) (enumerate news_list) st.

Definition build_stock (st : build_state)
           (entry : string * Dict.t (list string)) : build_state :=
  let (stock_code, stock_data) := entry in
  fold_left (build_date stock_code) (Dict.items stock_data) st.

Definition build_init : build_state :=
  {| b_index := []; b_documents := []; b_seen_docs := [] |}.

Definition build_loop (data : corpus) : build_state :=
  fold_left build_stock (Dict.items data) build_init.

Definition build_inverted_index (data : corpus)
  : inverted_index * document_list :=
  let st := build_loop data in (b_index st, b_documents st).

(** *** [search] *)

(** The body of the loop over a postings list. *)
Definition score_posting (token : string) (idf : R) (doc_scores : score_table)
           (full_doc_id : string) : Py.M score_table :=
  doc_content <- documents_next full_doc_id ;;
  let token_count := Str.count doc_content token in
  let total_tokens := length (preprocess doc_content) in
  tf <- Py.lift (true_div token_count total_tokens) ;;
  Py.ret (score_add doc_scores full_doc_id (tf * idf)%R).

(** The body of the loop over the query tokens. *)
Definition score_token (doc_scores : score_table) (token : string)
  : Py.M score_table :=
  present <- index_contains token ;;
  if (present : bool) then
    n <- documents_len ;;
    postings <- index_getitem token ;;
    ratio <- Py.lift (true_div n (length postings)) ;;
    idf <- Py.lift (math_log ratio) ;;
    postings' <- index_getitem token ;;
    Py.for_each postings' (score_posting token idf) doc_scores
  else Py.ret doc_scores.

(** The value of [doc_scores] when the loops are over. *)
Definition accumulate_scores (query : string) : Py.M score_table :=
  let query_tokens := preprocess query in
  Py.for_each query_tokens score_token [].

Definition search_body (query : string) : Py.M (list (string * R)) :=
  doc_scores <- accumulate_scores query ;;
  let sorted_results := sorted_desc (Dict.items doc_scores) in
  Py.ret (map (fun item : string * R =>
                 let (full_doc_id, _) := item in
                 (full_doc_id, score_get doc_scores full_doc_id))
              sorted_results).

(** [search(query, index, documents)]: the store after the call, and the
    returned list or the exception raised. *)
Definition search (query : string) (index : inverted_index)
           (documents : document_list) : heap * result (list (string * R)) :=
  search_body query {| h_index := index; h_documents := documents |}.

End Engine.

(** ** The scoring formula, as the specification words it *)

Section Formula.

Variable cut : string -> list string.
Variable stopwords : list string.

Definition Rsum (l : list R) : R := fold_right Rplus 0%R l.

(** The postings list of a token, empty for a token that is not a key. *)
Definition postings_of (index : inverted_index) (token : string) : list string :=
  match Dict.get index token with
  | Some postings => postings
  | None => []
  end.

(** The content that the linear lookup finds for an id. *)
Definition content_of (documents : document_list) (full_doc_id : string) : string :=
  match first_content documents full_doc_id with
  | Some content => content
  | None => EmptyString
  end.

(** tf = occurrences of the token as a substring of the raw content,
    divided by the number of tokens of the content. *)
Definition term_frequency (token content : string) : R :=
  (INR (Str.count content token)
   / INR (length (preprocess cut stopwords content)))%R.

(** idf = ln (N / df). *)
Definition inverse_document_frequency (index : inverted_index)
           (documents : document_list) (token : string) : R :=
  ln (INR (length documents) / INR (length (postings_of index token))).

(** What one occurrence of a query token adds to the score of an id: tf *
    idf for each entry of the token's postings list that is this id. *)
Definition token_contribution (index : inverted_index) (documents : document_list)
           (full_doc_id token : string) : R :=
  Rsum (map (fun _ : string =>
               (term_frequency token (content_of documents full_doc_id)
                * inverse_document_frequency index documents token)%R)
            (filter (String.eqb full_doc_id) (postings_of index token))).

(** The query tokens that are keys of the index, in query order and with
    their repetitions. *)
Definition matching_tokens (index : inverted_index) (query : string) : list string :=
  filter (Dict.mem index) (preprocess cut stopwords query).

(** The score summed over the occurrences of the query tokens. *)
Definition tfidf_score (query : string) (index : inverted_index)
           (documents : document_list) (full_doc_id : string) : R :=
  Rsum (map (token_contribution index documents full_doc_id)
            (matching_tokens index query)).

(** The score summed once per distinct query token. *)
Definition tfidf_score_distinct (query : string) (index : inverted_index)
           (documents : document_list) (full_doc_id : string) : R :=
  Rsum (map (token_contribution index documents full_doc_id)
            (py_set (matching_tokens index query))).

(** The score summed over the distinct query tokens, each weighted by the
    number of times the query repeats it. *)
Definition tfidf_score_weighted (query : string) (index : inverted_index)
           (documents : document_list) (full_doc_id : string) : R :=
  Rsum (map (fun token =>
               (INR (count_occ string_dec (matching_tokens index query) token)
                * token_contribution index documents full_doc_id token)%R)
            (py_set (matching_tokens index query))).

End Formula.

(** ** A tokenizer for the examples

    [run_cut] cuts a text into its maximal runs of blank and of non-blank
    characters, which is how space-separated words come out of a word
    segmenter; [preprocess] then drops the blank runs. *)

Fixpoint run_cut (text : string) : list string :=
  match text with
  | EmptyString => []
  | String c text' =>
      match run_cut text' with
      | String d r :: runs =>
          if Bool.eqb (Str.is_space c) (Str.is_space d)
          then String c (String d r) :: runs
          else String c EmptyString :: String d r :: runs
      | runs => String c EmptyString :: runs
      end
  end.

(** ** The builder on a loaded value of any shape

    [json.load] gives [None], a [bool], a number, a [str], a [list] or a
    [dict] with [str] keys, and nothing checks the shape of what was loaded
    before [build_inverted_index] walks it.  This section follows the same
    function on such a value.  (A JSON float is left out: like an [int] it
    has no [items], cannot be iterated and can be hashed.) *)

Local Set Warnings "-register-all".

Inductive json_value : Type :=
| JNone
| JBool (b : bool)
| JInt (n : Z)
| JStr (s : string)
| JList (l : list json_value)
| JDict (d : list (string * json_value)).

Module Loaded.

(** [v.items()]: only a [dict] has the attribute. *)
Definition items (v : json_value) : result (list (string * json_value)) :=
  match v with
  | JDict d => Ok d
  | _ => Raise AttributeError
  end.

(** The characters of a [str], each a [str] of length one. *)
Fixpoint chars (s : string) : list json_value :=
  match s with
  | EmptyString => []
  | String c s' => JStr (String c EmptyString) :: chars s'
  end.

(** [iter(v)], which [enumerate(v)] calls: a [list] gives its elements, a
    [str] its characters, a [dict] its keys; nothing else is iterable. *)
Definition iterate (v : json_value) : result (list json_value) :=
  match v with
  | JList l => Ok l
  | JStr s => Ok (chars s)
  | JDict d => Ok (map (fun entry : string * json_value => JStr (fst entry)) d)
  | _ => Raise TypeError
  end.

(** [hash(v)] is defined: lists and dicts are unhashable. *)
Definition hashable (v : json_value) : bool :=
  match v with
  | JList _ | JDict _ => false
  | _ => true
  end.

(** [a == b] on hashable values; a [bool] is the [int] 0 or 1. *)
Definition value_eqb (a b : json_value) : bool :=
  match a, b with
  | JNone, JNone => true
  | JBool x, JBool y => Bool.eqb x y
  | JBool x, JInt n | JInt n, JBool x => Z.eqb n (if x then 1 else 0)
  | JInt n, JInt m => Z.eqb n m
  | JStr s, JStr s' => String.eqb s s'
  | _, _ => false
  end.

(** [content in seen_docs] on a [set]: the content is hashed first. *)
Definition seen_contains (content : json_value) (seen_docs : list json_value)
  : result bool :=
  if hashable content then Ok (existsb (value_eqb content) seen_docs)
  else Raise TypeError.

Record build_state : Type := {
  b_index : inverted_index;
  b_documents : list (string * json_value);
  b_seen_docs : list json_value
}.

Section Builder.

(** [jieba.cut] applied to a value that need not be a [str]. *)
Variable cut_value : json_value -> result (list string).
Variable stopwords : list string.

Definition preprocess (text : json_value) : result (list string) :=
  match cut_value text with
  | Ok tokens =>
      Ok (filter (fun token =>
                    Str.strip_nonempty token && negb (Str.mem token stopwords))
                 tokens)
  | Raise e => Raise e
  end.

Definition build_doc (stock_code date : string) (st : build_state)
           (entry : nat * json_value) : result build_state :=
  let (doc_id, content) := entry in
  let full_doc_id := make_doc_id stock_code date doc_id in
  match seen_contains content (b_seen_docs st) with
  | Raise e => Raise e
  | Ok true => Ok st
  | Ok false =>
      match preprocess content with
      | Raise e => Raise e
      | Ok tokens =>
          Ok {| b_seen_docs := b_seen_docs st ++ [content];
                b_documents := b_documents st ++ [(full_doc_id, content)];
                b_index :=
                  fold_left (fun index token =>
                               append_posting index token full_doc_id)
                            (py_set tokens) (b_index st) |}
      end
  end.

Definition build_date (stock_code : string) (st : build_state)
           (entry : string * json_value) : result build_state :=
  let (date, news_list) := entry in
  match iterate news_list with
  | Raise e => Raise e
  | Ok news => Res.for_each (enumerate news) (build_doc stock_code date) st
  end.

Definition build_stock (st : build_state) (entry : string * json_value)
  : result build_state :=
  let (stock_code, stock_data) := entry in
  match items stock_data with
  | Raise e => Raise e
  | Ok dates => Res.for_each dates (build_date stock_code) st
  end.

Definition build_init : build_state :=
  {| b_index := []; b_documents := []; b_seen_docs := [] |}.

Definition build_inverted_index (data : json_value)
  : result (inverted_index * list (string * json_value)) :=
  match items data with
  | Raise e => Raise e
  | Ok stocks =>
      match Res.for_each stocks build_stock build_init with
      | Raise e => Raise e
      | Ok st => Ok (b_index st, b_documents st)
      end
  end.

End Builder.

(** The corpus has the documented shape as far as the loops go: a mapping
    of mappings of iterables. *)
Definition is_mapping (v : json_value) : bool :=
  match v with
  | JDict _ => true
  | _ => false
  end.



(** A corpus of the documented type, as the value [json.load] gives. *)
Definition of_corpus (data : corpus) : json_value :=
  JDict (map (fun stock : string * Dict.t (list string) =>
                (fst stock,
                 JDict (map (fun date : string * list string =>
                               (fst date, JList (map JStr (snd date))))
                            (snd stock))))
             data).

End Loaded.

(** ** The query engine as a function of the store

    The same loops as [search], written on the index and the document list
    as values; [search_body_result] below relates the two. *)

Section Pure.

Variable cut : string -> list string.
Variable stopwords : list string.

Definition posting_result (documents : document_list) (token : string) (idf : R)
           (doc_scores : score_table) (full_doc_id : string) : result score_table :=
  match first_content documents full_doc_id with
  | None => Raise StopIteration
  | Some doc_content =>
      match true_div (Str.count doc_content token)
                     (length (preprocess cut stopwords doc_content)) with
      | Raise e => Raise e
      | Ok tf => Ok (score_add doc_scores full_doc_id (tf * idf)%R)
      end
  end.

Definition token_result (index : inverted_index) (documents : document_list)
           (doc_scores : score_table) (token : string) : result score_table :=
  match Dict.get index token with
  | None => Ok doc_scores
  | Some postings =>
      match true_div (length documents) (length postings) with
      | Raise e => Raise e
      | Ok ratio =>
          match math_log ratio with
          | Raise e => Raise e
          | Ok idf =>
              Res.for_each postings (posting_result documents token idf) doc_scores
          end
      end
  end.

Definition scores_result (query : string) (index : inverted_index)
           (documents : document_list) : result score_table :=
  Res.for_each (preprocess cut stopwords query) (token_result index documents) [].

Definition search_result (query : string) (index : inverted_index)
           (documents : document_list) : result (list (string * R)) :=
  match scores_result query index documents with
  | Raise e => Raise e
  | Ok doc_scores =>
      Ok (map (fun item : string * R => (fst item, score_get doc_scores (fst item)))
              (sorted_desc doc_scores))
  end.

(** The (id, tf * idf) pairs in the order the loops add them. *)
Definition contributions_of (index : inverted_index) (documents : document_list)
           (token : string) : list (string * R) :=
  map (fun full_doc_id =>
         (full_doc_id,
          (term_frequency cut stopwords token (content_of documents full_doc_id)
           * inverse_document_frequency index documents token)%R))
      (postings_of index token).

Definition contributions (query : string) (index : inverted_index)
           (documents : document_list) : list (string * R) :=
  flat_map (contributions_of index documents)
           (preprocess cut stopwords query).

(** [doc_scores[k] += x] for each pair of a list. *)
Definition add_all (doc_scores : score_table) (l : list (string * R)) : score_table :=
  fold_left (fun ds item => score_add ds (fst item) (snd item)) l doc_scores.

(** The index that a document list gives when every entry adds its id
    once to the postings of each of its distinct tokens. *)
Definition index_document (index : inverted_index) (doc : string * string)
  : inverted_index :=
  fold_left (fun index token => append_posting index token (fst doc))
            (py_set (preprocess cut stopwords (snd doc))) index.

Definition index_of_documents (documents : document_list) : inverted_index :=
  fold_left index_document documents [].

(** The ids of the stored documents that have a given token. *)
Definition documents_with (token : string) (documents : document_list)
  : list string :=
  map fst (filter (fun doc => Str.mem token (preprocess cut stopwords (snd doc)))
                  documents).

(** The checks that the loops pass when nothing is raised: the lookup of a
    posting finds a content, and that content has a token to divide by; a
    token that is a key has a non-empty postings list to divide by, and the
    document list is not empty, so that the logarithm is defined. *)
Definition posting_defined (documents : document_list) (full_doc_id : string) : bool :=
  match first_content documents full_doc_id with
  | Some doc_content =>
      negb (Nat.eqb (length (preprocess cut stopwords doc_content)) 0)
  | None => false
  end.

Definition token_defined (index : inverted_index) (documents : document_list)
           (token : string) : bool :=
  match Dict.get index token with
  | None => true
  | Some postings =>
      negb (Nat.eqb (length postings) 0)
      && negb (Nat.eqb (length documents) 0)
      && forallb (posting_defined documents) postings
  end.

Definition search_defined (query : string) (index : inverted_index)
           (documents : document_list) : bool :=
  forallb (token_defined index documents) (preprocess cut stopwords query).

(** What the loops of the builder keep true of its three variables: the
    set of seen contents is the contents of the stored documents, no content
    is stored twice, and the index is the index of the stored documents. *)
Definition build_inv (st : build_state) : Prop :=
  b_seen_docs st = map snd (b_documents st)
  /\ NoDup (map snd (b_documents st))
  /\ b_index st = index_of_documents (b_documents st).

End Pure.

(** The amounts that a list of (id, amount) pairs holds for one id. *)
Definition amounts_for (k : string) (l : list (string * R)) : list R :=
  map snd (filter (fun item => String.eqb k (fst item)) l).

(** Descending order of score: [a] may stand before [b]. *)
Definition score_ge (a b : string * R) : Prop := (snd b <= snd a)%R.

(** The items of a list whose score is [v]. *)
Definition with_score (v : R) (l : list (string * R)) : list (string * R) :=
  filter (fun item => Reqb (snd item) v) l.

(** A string without the character that separates the parts of an id. *)
Fixpoint no_dash (s : string) : bool :=
  match s with
  | EmptyString => true
  | String c s' => negb (Ascii.eqb c "-"%char) && no_dash s'
  end.

(** The keys of the corpus are pairwise distinct at both levels, as the
    keys of a [dict] are. *)
Definition distinct_keys (data : corpus) : Prop :=
  NoDup (Dict.keys data)
  /\ forall stock, In stock data -> NoDup (Dict.keys (snd stock)).

(** No stock code and no date has a "-". *)
Definition dash_free_keys (data : corpus) : Prop :=
  forall stock, In stock data ->
    no_dash (fst stock) = true
    /\ forall date, In date (snd stock) -> no_dash (fst date) = true.

(** The ids that the builder forms, one for each text of the corpus, in
    the order it visits them. *)
Definition date_ids (stock_code : string) (date : string * list string)
  : list string :=
  map (make_doc_id stock_code (fst date)) (seq 0 (length (snd date))).

Definition stock_ids (stock : string * Dict.t (list string)) : list string :=
  flat_map (date_ids (fst stock)) (snd stock).

Definition corpus_ids (data : corpus) : list string :=
  flat_map stock_ids data.

(** Every text of a corpus, in the order the builder visits them. *)
Definition corpus_contents (data : corpus) : list string :=
  flat_map (fun stock : string * Dict.t (list string) =>
              flat_map (fun date : string * list string => snd date) (snd stock))
           data.

(** ** Example corpora *)

(** One stock, one date, two texts that share the word "great". *)
Definition corpus_great : corpus :=
  [("A", [("2020-01-01", ["cats are great"; "dogs are great"])])].

(** Two texts with no word in common. *)
Definition corpus_pair : corpus :=
  [("A", [("d", ["great"; "dogs"])])].

(** Two stocks whose codes and dates join to the same string: "A-B" with
    "C", and "A" with "B-C". *)
Definition corpus_clash : corpus :=
  [("A-B", [("C", [""])]); ("A", [("B-C", ["great"])])].

(** The same text under two stocks and two dates. *)
Definition corpus_repeat : corpus :=
  [("A", [("d1", ["cats are great"; "dogs"])]);
   ("B", [("d2", ["x"; "cats are great"])])].

(** What the builder returns on [corpus_pair] and on [corpus_clash] with
    the tokenizer [run_cut] and no stop word. *)
Definition index_pair : inverted_index :=
  [("great", ["A-d-0"]); ("dogs", ["A-d-1"])].

Definition documents_pair : document_list :=
  [("A-d-0", "great"); ("A-d-1", "dogs")].

Definition index_clash : inverted_index := [("great", ["A-B-C-0"])].

Definition documents_clash : document_list :=
  [("A-B-C-0", ""); ("A-B-C-0", "great")].

(** The document list of [corpus_great], under any tokenizer. *)
Definition documents_great : document_list :=
  [("A-2020-01-01-0", "cats are great"); ("A-2020-01-01-1", "dogs are great")].

(** tf * idf of "great" in the first text of [corpus_pair]: one occurrence,
    one token, two documents, one posting. *)
Definition tfidf_great_pair : R := (INR 1 / INR 1 * ln (INR 2 / INR 1))%R.




(** The builder state on loaded values that stands for a state on texts. *)
Definition loaded_state (st : build_state) : Loaded.build_state :=
  {| Loaded.b_index := b_index st;
     Loaded.b_documents :=
       map (fun doc : string * string => (fst doc, JStr (snd doc))) (b_documents st);
     Loaded.b_seen_docs := map JStr (b_seen_docs st) |}.

(** ** Loading and presentation

    The remaining functions of [main.py]: [load_text],
    [load_all_data_from_dir] and [display_results], with the string
    methods they call.  What lies outside the repository is a parameter: a
    text file is the list of the lines that iterating it yields, a
    directory is the list of names that [os.listdir] returns, and
    [load_json] is a function of the path that gives the loaded value, or
    nothing when opening or decoding the file raises. *)

Module Text.

(** [s.lstrip()]. *)
Fixpoint lstrip (s : string) : string :=
  match s with
  | EmptyString => EmptyString
  | String c s' => if Str.is_space c then lstrip s' else s
  end.

(** [s.rstrip()]. *)
Fixpoint rstrip (s : string) : string :=
  match s with
  | EmptyString => EmptyString
  | String c s' =>
      match rstrip s' with
      | EmptyString => if Str.is_space c then EmptyString else String c EmptyString
      | String d r => String c (String d r)
      end
  end.

(** [s.strip()]. *)
Definition strip (s : string) : string := lstrip (rstrip s).

(** The truth value of a [str]: it is not empty. *)
Definition truthy (s : string) : bool :=
  match s with
  | EmptyString => false
  | String _ _ => true
  end.

(** [s.split(sep)] for a separator of one character: the pieces between
    the separators, of which there is always at least one. *)
Fixpoint split (sep : ascii) (s : string) : list string :=
  match s with
  | EmptyString => [EmptyString]
  | String c s' =>
      if Ascii.eqb c sep then EmptyString :: split sep s'
      else
        match split sep s' with
        | piece :: pieces => String c piece :: pieces
        | [] => [String c EmptyString]
        end
  end.

(** [s.endswith(suffix)]. *)
Fixpoint endswith (suffix s : string) : bool :=
  if String.eqb suffix s then true
  else
    match s with
    | EmptyString => false
    | String _ s' => endswith suffix s'
    end.

(** Left-to-right scan of [s.replace(old, new)] for a non-empty [old], with
    the same [skip] as [Str.count_scan]. *)
Fixpoint replace_scan (old new s : string) (skip : nat) : string :=
  match s with
  | EmptyString => EmptyString
  | String c s' =>
      match skip with
      | S k => replace_scan old new s' k
      | O =>
          if Str.startswith old s
          then (new ++ replace_scan old new s' (String.length old - 1))%string
          else String c (replace_scan old new s' 0)
      end
  end.

(** [new] after every character of [s]. *)
Fixpoint after_each (new s : string) : string :=
  match s with
  | EmptyString => EmptyString
  | String c s' => String c (new ++ after_each new s')%string
  end.

(** [s.replace(old, new)]: every non-overlapping occurrence of [old],
    found from the left, becomes [new]; an empty [old] puts [new] before
    every character and at the end. *)
Definition replace (s old new : string) : string :=
  match old with
  | EmptyString => (new ++ after_each new s)%string
  | String _ _ => replace_scan old new s 0
  end.

(** The number of times a character occurs in a string. *)
Fixpoint occurrences (c : ascii) (s : string) : nat :=
  match s with
  | EmptyString => 0
  | String d s' => (if Ascii.eqb d c then 1 else 0) + occurrences c s'
  end.

(** [os.path.join(a, b)] with the POSIX separator. *)
Definition path_join (a b : string) : string :=
  if Str.startswith "/" b then b
  else if (negb (truthy a) || endswith "/" a)%bool then (a ++ b)%string
  else (a ++ "/" ++ b)%string.

End Text.

(** *** [load_text] *)

(** [[line.strip() for line in file if line.strip()]] on the lines of the
    file. *)
Definition load_text (file : list string) : list string :=
  map Text.strip (filter (fun line => Text.truthy (Text.strip line)) file).

(** *** [load_all_data_from_dir] *)

Section Loading.

(** [load_json] on a path: the loaded value, or nothing when it raises. *)
Variable load_json : string -> option json_value.

(** The body of the loop over the file names. *)
Definition load_file (directory : string)
           (combined_data : option (Dict.t json_value)) (filename : string)
  : option (Dict.t json_value) :=
  match combined_data with
  | None => None
  | Some combined =>
      if Text.endswith ".json" filename then
        let stock_code := hd EmptyString (Text.split "." filename) in
        let file_path := Text.path_join directory filename in
        match load_json file_path with
        | Some data => Some (Dict.set combined stock_code data)
        | None => None
        end
      else Some combined
  end.

(** [load_all_data_from_dir(directory)], where [listing] is what
    [os.listdir(directory)] returns. *)
Definition load_all_data_from_dir (listing : list string) (directory : string)
  : option (Dict.t json_value) :=
  fold_left (load_file directory) listing (Some []).

End Loading.

(** The file names of a listing that the loader reads under a stock code. *)
Definition is_json_of (stock_code filename : string) : bool :=
  Text.endswith ".json" filename
  && String.eqb (hd EmptyString (Text.split "." filename)) stock_code.

(** The last element of a list that passes a test. *)
Definition find_last {A : Type} (p : A -> bool) (l : list A) : option A :=
  find p (rev l).

(** *** [display_results] *)

(** The exceptions of the presentation code: a built-in one of the list
    above, or a [KeyError] with the missing key. *)
Inductive shown_exn : Type :=
| Builtin (e : exn)
| KeyError (key : string).

(** The escape sequences that switch the terminal to red and back. *)
Definition red_on : string := String "027"%char "[91m".
Definition red_off : string := String "027"%char "[0m".

(** The values that one printed line shows: the rank, the stock code, the
    date, the highlighted content and the score (of which the line prints
    two decimals). *)
Record shown_line : Type := {
  l_idx : nat;
  l_stock_code : string;
  l_date : string;
  l_content : string;
  l_score : R
}.

(** [{doc[0]: doc[1] for doc in documents}]. *)
Definition doc_map_of (documents : document_list) : Dict.t string :=
  fold_left (fun doc_map doc => Dict.set doc_map (fst doc) (snd doc)) documents [].

(** The loop that wraps every occurrence of every query token in red. *)
Definition highlight (content : string) (query_tokens : list string) : string :=
  fold_left (fun content token =>
               Text.replace content token (red_on ++ token ++ red_off)%string)
            query_tokens content.

(** The body of the loop over the results: the line it prints, or the
    exception it raises. *)
Definition display_line (doc_map : Dict.t string) (query_tokens : list string)
           (idx : nat) (item : string * R) : shown_line + shown_exn :=
  let (full_doc_id, score) := item in
  match Text.split "-" full_doc_id with
  | [stock_code; date; doc_id] =>
      match Dict.get doc_map full_doc_id with
      | None => inr (KeyError full_doc_id)
      | Some doc_content =>
          inl {| l_idx := idx;
                 l_stock_code := stock_code;
                 l_date := date;
                 l_content := highlight (Text.strip doc_content) query_tokens;
                 l_score := score |}
      end
  | _ => inr (Builtin ValueError)
  end.

(** The lines printed from rank [idx] on, and the exception that ended the
    loop, if one did. *)
Fixpoint display_from (doc_map : Dict.t string) (query_tokens : list string)
         (idx : nat) (items : list (string * R))
  : list shown_line * option shown_exn :=
  match items with
  | [] => ([], None)
  | item :: items' =>
      match display_line doc_map query_tokens idx item with
      | inr e => ([], Some e)
      | inl line =>
          let (lines, e) := display_from doc_map query_tokens (S idx) items' in
          (line :: lines, e)
      end
  end.

(** [display_results(results, documents, query_tokens)]. *)
Definition display_results (results : list (string * R)) (documents : document_list)
           (query_tokens : list string) : list shown_line * option shown_exn :=
  display_from (doc_map_of documents) query_tokens 1 (firstn 20 results).

(** [seen_docs] after a text has gone through the test and the [add] of
    the builder's inner loop. *)
Definition remember (seen_docs : list string) (content : string) : list string :=
  if Str.mem content seen_docs then seen_docs else seen_docs ++ [content].

(** A stored entry stands at position [n] of the news list of a date of a
    stock of the corpus, and its id spells that place. *)
Definition stored_from (data : corpus) (doc : string * string) : Prop :=
  exists stock_code stock_data date news_list n,
    In (stock_code, stock_data) data
    /\ In (date, news_list) stock_data
    /\ nth_error news_list n = Some (snd doc)
    /\ fst doc = make_doc_id stock_code date n.

(** Three texts of one date: two with three tokens each, in which "cat"
    occurs twice and once, and one without it. *)
Definition corpus_cats : corpus :=
  [("A", [("d", ["cat cat dog"; "cat dog bird"; "fish"])])].

(** A directory listing with two files read under the stock code "a" and
    one file that is not a JSON file. *)
Definition listing_stems : list string := ["a.json"; "notes.txt"; "a.b.json"].

(** A [load_json] that gives the path it was called with. *)
Definition load_path (file_path : string) : option json_value :=
  Some (JStr file_path).

(** The score as a sum in which every query token that is a key of the
    index counts for every document, whether or not the postings list of
    the token holds the id of the document. *)
Definition tfidf_score_every_key (cut : string -> list string)
           (stopwords : list string) (query : string) (index : inverted_index)
           (documents : document_list) (full_doc_id : string) : R :=
  Rsum (map (fun t =>
               (term_frequency cut stopwords t (content_of documents full_doc_id)
                * inverse_document_frequency index documents t)%R)
            (matching_tokens cut stopwords index query)).

(** Three texts, the first of which has "great" as a substring of its
    token "greatness" but not as a token. *)
Definition corpus_substring : corpus :=
  [("A", [("d", ["greatness cat"; "great"; "dog"])])].

Definition index_substring : inverted_index :=
  [("greatness", ["A-d-0"]); ("cat", ["A-d-0"]);
   ("great", ["A-d-1"]); ("dog", ["A-d-2"])].

Definition documents_substring : document_list :=
  [("A-d-0", "greatness cat"); ("A-d-1", "great"); ("A-d-2", "dog")].

(** tf * idf in [corpus_substring] of "cat" in the first text (one
    occurrence, two tokens), of "great" in the second (one occurrence, one
    token), and of the substring "great" in the first. *)
Definition tfidf_cat_substring : R := (INR 1 / INR 2 * ln (INR 3 / INR 1))%R.
Definition tfidf_great_substring : R := (INR 1 / INR 1 * ln (INR 3 / INR 1))%R.

(** [os.listdir] as a function of the path: the names, or nothing when it
    raises (the directory is missing, or is not a directory). *)
Definition load_all_data_from (listdir : string -> option (list string))
           (load_json : string -> option json_value) (directory : string)
  : option (Dict.t json_value) :=
  match listdir directory with
  | Some listing => load_all_data_from_dir load_json listing directory
  | None => None
  end.

(** A directory "news" with the files of [listing_stems], and no other
    directory. *)
Definition listdir_news (directory : string) : option (list string) :=
  if String.eqb directory "news" then Some listing_stems else None.

(** * Properties *)

(** ** Dictionaries *)

Module DictFacts.
Section DictFacts.

Context {V : Type}.
Implicit Types (d : Dict.t V) (k : string) (v : V).

Lemma get_set_same d k v : Dict.get (Dict.set d k v) k = Some v.
Proof.
  induction d as [|[k' v'] d IH]; simpl.
  - now rewrite String.eqb_refl.
  - destruct (String.eqb k' k) eqn:E; simpl; rewrite E; auto.
Qed.

Lemma get_set_other d k k' v :
  k <> k' -> Dict.get (Dict.set d k v) k' = Dict.get d k'.
Proof.
  intros Hne. induction d as [|[k0 v0] d IH]; simpl.
  - destruct (String.eqb_spec k k'); congruence.
  - destruct (String.eqb_spec k0 k) as [->|Hk]; simpl.
    + destruct (String.eqb_spec k k'); congruence.
    + now rewrite IH.
Qed.

Lemma get_set d k k' v :
  Dict.get (Dict.set d k v) k'
  = if String.eqb k k' then Some v else Dict.get d k'.
Proof.
  destruct (String.eqb_spec k k') as [->|Hne].
  - apply get_set_same.
  - now apply get_set_other.
Qed.

Lemma keys_set d k v :
  Dict.keys (Dict.set d k v)
  = if Dict.mem d k then Dict.keys d else Dict.keys d ++ [k].
Proof.
  unfold Dict.mem, Dict.keys.
  induction d as [|[k' v'] d IH]; simpl; auto.
  destruct (String.eqb_spec k' k) as [->|Hk]; simpl; auto.
  rewrite IH. now destruct (Dict.get d k).
Qed.

Lemma get_none_keys d k : Dict.get d k = None <-> ~ In k (Dict.keys d).
Proof.
  unfold Dict.keys. induction d as [|[k' v'] d IH]; simpl.
  - tauto.
  - destruct (String.eqb_spec k' k) as [->|Hk].
    + split; [discriminate | intros H; exfalso; auto].
    + rewrite IH. tauto.
Qed.

Lemma mem_keys d k : Dict.mem d k = true <-> In k (Dict.keys d).
Proof.
  unfold Dict.mem. destruct (Dict.get d k) eqn:E.
  - split; auto. intros _.
    destruct (in_dec string_dec k (Dict.keys d)) as [Hin|Hn]; auto.
    apply get_none_keys in Hn. congruence.
  - apply get_none_keys in E. split; [discriminate | tauto].
Qed.

Lemma nodup_keys_set d k v :
  NoDup (Dict.keys d) -> NoDup (Dict.keys (Dict.set d k v)).
Proof.
  intros Hnd. rewrite keys_set.
  destruct (Dict.mem d k) eqn:E; auto.
  apply NoDup_app; auto.
  - repeat constructor. simpl. tauto.
  - intros x Hx [<-|[]].
    apply mem_keys in Hx. congruence.
Qed.

Lemma in_get d k v :
  NoDup (Dict.keys d) -> In (k, v) d -> Dict.get d k = Some v.
Proof.
  unfold Dict.keys. induction d as [|[k' v'] d IH]; simpl; [tauto|].
  intros Hnd [Heq|Hin].
  - inversion Heq; subst. now rewrite String.eqb_refl.
  - inversion Hnd as [|? ? Hk Hnd']; subst.
    destruct (String.eqb_spec k' k) as [->|Hne]; auto.
    exfalso. apply Hk. now apply (in_map fst) in Hin.
Qed.

End DictFacts.
End DictFacts.

(** ** [search] against the store *)

Section SearchStore.

Variable cut : string -> list string.
Variable stopwords : list string.

Lemma index_getitem_key (h : heap) (token : string) (postings : list string) :
  Dict.get (h_index h) token = Some postings ->
  index_getitem token h = (h, Ok postings).
Proof. unfold index_getitem. now intros ->. Qed.

Lemma score_posting_result token idf doc_scores full_doc_id (h : heap) :
  score_posting cut stopwords token idf doc_scores full_doc_id h
  = (h, posting_result cut stopwords (h_documents h) token idf doc_scores full_doc_id).
Proof.
  unfold score_posting, posting_result, Py.bind, documents_next, Py.lift, Py.ret.
  destruct (first_content (h_documents h) full_doc_id) as [content|]; auto.
  now destruct (true_div _ _).
Qed.

Lemma for_each_result {A S : Type} (body : S -> A -> Py.M S)
      (pure : heap -> S -> A -> result S) (h : heap) :
  (forall s x, body s x h = (h, pure h s x)) ->
  forall l s, Py.for_each l body s h = (h, Res.for_each l (pure h) s).
Proof.
  intros Hbody l. induction l as [|x l IH]; intros s; simpl; auto.
  unfold Py.bind. rewrite Hbody.
  destruct (pure h s x); auto.
Qed.

Lemma score_token_result doc_scores token (h : heap) :
  score_token cut stopwords doc_scores token h
  = (h, token_result cut stopwords (h_index h) (h_documents h) doc_scores token).
Proof.
  unfold score_token, token_result, Py.bind, index_contains, Dict.mem.
  destruct (Dict.get (h_index h) token) as [postings|] eqn:Hget; auto.
  unfold documents_len, Py.lift.
  rewrite (index_getitem_key h token postings Hget).
  destruct (true_div _ _) as [ratio|]; auto.
  destruct (math_log ratio) as [idf|]; auto.
  rewrite (index_getitem_key h token postings Hget).
  apply (for_each_result _ (fun h' => posting_result cut stopwords (h_documents h') token idf)).
  intros. apply score_posting_result.
Qed.

Lemma accumulate_scores_result query (h : heap) :
  accumulate_scores cut stopwords query h
  = (h, scores_result cut stopwords query (h_index h) (h_documents h)).
Proof.
  unfold accumulate_scores, scores_result.
  apply (for_each_result _ (fun h' => token_result cut stopwords (h_index h') (h_documents h'))).
  intros. apply score_token_result.
Qed.

Lemma search_body_result query (h : heap) :
  search_body cut stopwords query h
  = (h, search_result cut stopwords query (h_index h) (h_documents h)).
Proof.
  unfold search_body, search_result, Py.bind.
  rewrite accumulate_scores_result.
  destruct (scores_result _ _ _ _) as [doc_scores|]; auto.
  unfold Py.ret, Dict.items. f_equal. f_equal.
  apply map_ext. now intros [id s].
Qed.

Lemma search_eq query index documents :
  search cut stopwords query index documents
  = ({| h_index := index; h_documents := documents |},
     search_result cut stopwords query index documents).
Proof. unfold search. now rewrite search_body_result. Qed.

(** C9. [search] leaves the inverted index and the document list as it
    found them, for every index, document list and query, whether it
    returns or raises: the index is a [defaultdict], but it is only
    subscripted under a key that the membership test found. *)
Theorem search_mutates_nothing query index documents :
  fst (search cut stopwords query index documents)
  = {| h_index := index; h_documents := documents |}.
Proof.
  unfold search, search_body, Py.bind.
  rewrite accumulate_scores_result.
  now destruct (scores_result _ _ _ _ _).
Qed.

End SearchStore.

(** A subscript under a missing key does change a [defaultdict]. *)
Example index_getitem_inserts :
  index_getitem "cat" {| h_index := []; h_documents := [] |}
  = ({| h_index := [("cat", [])]; h_documents := [] |}, Ok []).
Proof. reflexivity. Qed.

(** ** The accumulator *)

Section Accumulator.

Implicit Types (ds : score_table) (l : list (string * R)).

Lemma score_get_add ds k k' x :
  score_get (score_add ds k x) k'
  = if String.eqb k k' then (score_get ds k + x)%R else score_get ds k'.
Proof.
  unfold score_add, score_get at 1. rewrite DictFacts.get_set.
  now destruct (String.eqb k k').
Qed.

Lemma keys_score_add ds k x :
  Dict.keys (score_add ds k x)
  = if Dict.mem ds k then Dict.keys ds else Dict.keys ds ++ [k].
Proof. apply DictFacts.keys_set. Qed.

Lemma nodup_keys_add_all l : forall ds,
  NoDup (Dict.keys ds) -> NoDup (Dict.keys (add_all ds l)).
Proof.
  induction l as [|[k x] l IH]; intros ds Hnd; simpl; auto.
  apply IH. now apply DictFacts.nodup_keys_set.
Qed.

Lemma Rsum_app (a b : list R) : Rsum (a ++ b) = (Rsum a + Rsum b)%R.
Proof.
  induction a as [|x a IH]; simpl.
  - ring.
  - rewrite IH. ring.
Qed.

Lemma score_get_add_all l : forall ds k,
  score_get (add_all ds l) k = (score_get ds k + Rsum (amounts_for k l))%R.
Proof.
  unfold amounts_for.
  induction l as [|[k' x] l IH]; intros ds k; simpl.
  - ring.
  - change (fold_left _ l ?d) with (add_all d l).
    rewrite IH, score_get_add. rewrite (String.eqb_sym k k').
    destruct (String.eqb_spec k' k) as [->|Hne]; simpl; ring.
Qed.

Lemma keys_add_all_in l : forall ds k,
  In k (Dict.keys (add_all ds l)) <-> In k (Dict.keys ds) \/ In k (map fst l).
Proof.
  induction l as [|[k' x] l IH]; intros ds k; simpl.
  - tauto.
  - change (fold_left _ l ?d) with (add_all d l).
    rewrite IH, keys_score_add.
    destruct (Dict.mem ds k') eqn:E.
    + apply DictFacts.mem_keys in E.
      intuition (subst; auto).
    + rewrite in_app_iff. simpl. tauto.
Qed.

End Accumulator.

(** ** The accumulated scores in closed form *)

Section Scores.

Variable cut : string -> list string.
Variable stopwords : list string.

Notation preprocess := (preprocess cut stopwords).
Notation term_frequency := (term_frequency cut stopwords).

Lemma true_div_ok a b x : true_div a b = Ok x -> x = (INR a / INR b)%R.
Proof. destruct b; simpl; congruence. Qed.

Lemma math_log_ok x y : math_log x = Ok y -> y = ln x.
Proof. unfold math_log. destruct (Rle_dec x 0); congruence. Qed.

Lemma postings_loop_ok documents token idf postings : forall ds ds',
  Res.for_each postings (posting_result cut stopwords documents token idf) ds = Ok ds' ->
  ds' = add_all ds
          (map (fun id => (id, (term_frequency token (content_of documents id) * idf)%R))
               postings).
Proof.
  induction postings as [|id postings IH]; intros ds ds' H; simpl in *.
  - congruence.
  - unfold posting_result at 1 in H. unfold content_of at 1.
    destruct (first_content documents id) as [content|]; [|discriminate].
    destruct (true_div _ _) as [tf|] eqn:Htf; [|discriminate].
    apply true_div_ok in Htf. subst tf.
    now apply IH in H.
Qed.

Lemma token_result_ok index documents ds ds' token :
  token_result cut stopwords index documents ds token = Ok ds' ->
  ds' = add_all ds (contributions_of cut stopwords index documents token).
Proof.
  unfold token_result, contributions_of, inverse_document_frequency, postings_of.
  destruct (Dict.get index token) as [postings|].
  - destruct (true_div _ _) as [ratio|] eqn:Hr; [|discriminate].
    destruct (math_log ratio) as [idf|] eqn:Hl; [|discriminate].
    apply true_div_ok in Hr. apply math_log_ok in Hl. subst.
    apply postings_loop_ok.
  - simpl. congruence.
Qed.

Lemma add_all_app ds l1 l2 : add_all (add_all ds l1) l2 = add_all ds (l1 ++ l2).
Proof. unfold add_all. now rewrite fold_left_app. Qed.

Lemma tokens_loop_ok index documents tokens : forall ds ds',
  Res.for_each tokens (token_result cut stopwords index documents) ds = Ok ds' ->
  ds' = add_all ds (flat_map (contributions_of cut stopwords index documents) tokens).
Proof.
  induction tokens as [|token tokens IH]; intros ds ds' H; simpl in *.
  - congruence.
  - destruct (token_result _ _ _ _ _ _) as [ds1|] eqn:H1; [|discriminate].
    apply token_result_ok in H1. apply IH in H. subst.
    apply add_all_app.
Qed.

Lemma scores_result_ok query index documents ds :
  scores_result cut stopwords query index documents = Ok ds ->
  ds = add_all [] (contributions cut stopwords query index documents).
Proof. apply tokens_loop_ok. Qed.

Lemma amounts_for_app k l1 l2 :
  amounts_for k (l1 ++ l2) = amounts_for k l1 ++ amounts_for k l2.
Proof. unfold amounts_for. now rewrite filter_app, map_app. Qed.

Lemma amounts_for_contributions_of index documents id token :
  Rsum (amounts_for id (contributions_of cut stopwords index documents token))
  = token_contribution cut stopwords index documents id token.
Proof.
  unfold token_contribution, contributions_of, amounts_for.
  induction (postings_of index token) as [|p l IH]; simpl; auto.
  destruct (String.eqb_spec id p) as [->|Hne]; simpl; auto.
  now rewrite IH.
Qed.

Lemma token_contribution_absent index documents id token :
  Dict.mem index token = false ->
  token_contribution cut stopwords index documents id token = 0%R.
Proof.
  unfold Dict.mem, token_contribution, postings_of.
  now destruct (Dict.get index token).
Qed.

Lemma amounts_for_tokens index documents id tokens :
  Rsum (amounts_for id (flat_map (contributions_of cut stopwords index documents) tokens))
  = Rsum (map (token_contribution cut stopwords index documents id)
              (filter (Dict.mem index) tokens)).
Proof.
  induction tokens as [|t tokens IH]; simpl; auto.
  rewrite amounts_for_app, Rsum_app, IH, amounts_for_contributions_of.
  destruct (Dict.mem index t) eqn:E; simpl; auto.
  rewrite token_contribution_absent by assumption. ring.
Qed.

(** The score that the loops leave under an id. *)
Lemma score_get_scores_result query index documents ds id :
  scores_result cut stopwords query index documents = Ok ds ->
  score_get ds id = tfidf_score cut stopwords query index documents id.
Proof.
  intros H. apply scores_result_ok in H. subst ds.
  rewrite score_get_add_all. unfold contributions, tfidf_score, matching_tokens.
  rewrite amounts_for_tokens. unfold score_get. simpl. ring.
Qed.

Lemma nodup_keys_scores_result query index documents ds :
  scores_result cut stopwords query index documents = Ok ds ->
  NoDup (Dict.keys ds).
Proof.
  intros H. apply scores_result_ok in H. subst ds.
  apply nodup_keys_add_all. constructor.
Qed.

End Scores.

(** ** The sort *)

Section Sorting.

Implicit Types (x y : string * R) (l : list (string * R)).

Lemma Rltb_true a b : Rltb a b = true <-> (a < b)%R.
Proof. unfold Rltb. destruct (Rlt_dec a b); split; auto; discriminate. Qed.

Lemma Rltb_false a b : Rltb a b = false <-> (b <= a)%R.
Proof.
  unfold Rltb. destruct (Rlt_dec a b); split; auto; try discriminate; lra.
Qed.

Lemma Reqb_true a b : Reqb a b = true <-> a = b.
Proof. unfold Reqb. destruct (Req_dec_T a b); split; auto; discriminate. Qed.

Lemma insert_desc_perm x l : Permutation (x :: l) (insert_desc x l).
Proof.
  induction l as [|y l IH]; simpl; auto.
  destruct (Rltb (snd x) (snd y)); auto.
  rewrite perm_swap. now constructor.
Qed.

Lemma sorted_desc_perm l : Permutation l (sorted_desc l).
Proof.
  induction l as [|x l IH]; simpl; auto.
  rewrite <- insert_desc_perm. now constructor.
Qed.

Lemma insert_desc_hd x y l :
  score_ge y x -> HdRel score_ge y l -> HdRel score_ge y (insert_desc x l).
Proof.
  intros Hyx Hl. destruct l as [|z l]; simpl.
  - now constructor.
  - inversion Hl; subst.
    destruct (Rltb (snd x) (snd z)); now constructor.
Qed.

Lemma insert_desc_sorted x l :
  Sorted score_ge l -> Sorted score_ge (insert_desc x l).
Proof.
  induction l as [|y l IH]; intros Hs; simpl.
  - repeat constructor.
  - inversion Hs as [|? ? Hl Hhd]; subst.
    destruct (Rltb (snd x) (snd y)) eqn:E.
    + apply Rltb_true in E. constructor; auto.
      apply insert_desc_hd; auto. unfold score_ge. lra.
    + apply Rltb_false in E. constructor; auto.
Qed.

Lemma sorted_desc_sorted l : StronglySorted score_ge (sorted_desc l).
Proof.
  apply Sorted_StronglySorted.
  - intros a b c. unfold score_ge. lra.
  - induction l as [|x l IH]; simpl.
    + constructor.
    + now apply insert_desc_sorted.
Qed.

Lemma with_score_insert_desc v x l :
  with_score v (insert_desc x l) = with_score v (x :: l).
Proof.
  unfold with_score. induction l as [|y l IH]; simpl; auto.
  destruct (Rltb (snd x) (snd y)) eqn:E; auto.
  simpl. rewrite IH. simpl.
  destruct (Reqb (snd x) v) eqn:Ex; destruct (Reqb (snd y) v) eqn:Ey; auto.
  apply Reqb_true in Ex, Ey. apply Rltb_true in E. lra.
Qed.

Lemma with_score_sorted_desc v l : with_score v (sorted_desc l) = with_score v l.
Proof.
  induction l as [|x l IH]; simpl; auto.
  rewrite with_score_insert_desc. unfold with_score in *. simpl.
  now rewrite IH.
Qed.

(** Reading each score back from the table changes nothing when the keys
    of the table are pairwise distinct. *)
Lemma read_back_sorted (ds : score_table) :
  NoDup (Dict.keys ds) ->
  map (fun item : string * R => (fst item, score_get ds (fst item))) (sorted_desc ds)
  = sorted_desc ds.
Proof.
  intros Hnd. rewrite <- (map_id (sorted_desc ds)) at 2.
  apply map_ext_in. intros [k v] Hin. simpl.
  apply (Permutation_in _ (Permutation_sym (sorted_desc_perm ds))) in Hin.
  unfold score_get. now rewrite (DictFacts.in_get ds k v Hnd Hin).
Qed.

End Sorting.

(** ** Distinct elements and discovery order *)

Section Distinct.

Lemma str_mem_in x l : Str.mem x l = true <-> In x l.
Proof.
  unfold Str.mem. rewrite existsb_exists. split.
  - intros [y [Hin Heq]]. apply String.eqb_eq in Heq. now subst.
  - intros Hin. exists x. split; auto. apply String.eqb_refl.
Qed.

Lemma str_mem_app x l1 l2 : Str.mem x (l1 ++ l2) = Str.mem x l1 || Str.mem x l2.
Proof. unfold Str.mem. apply existsb_app. Qed.

Lemma py_set_in x l : In x (py_set l) <-> In x l.
Proof.
  induction l as [|y l IH]; simpl; [tauto|].
  rewrite filter_In, IH, negb_true_iff.
  destruct (String.eqb_spec y x) as [->|Hne]; intuition congruence.
Qed.

Lemma py_set_nodup l : NoDup (py_set l).
Proof.
  induction l as [|y l IH]; simpl; constructor.
  - rewrite filter_In, String.eqb_refl. simpl. intros [_ H]. discriminate.
  - now apply NoDup_filter.
Qed.

Lemma filter_filter {A : Type} (p q : A -> bool) l :
  filter p (filter q l) = filter (fun x => q x && p x) l.
Proof.
  induction l as [|x l IH]; simpl; auto.
  destruct (q x); simpl; rewrite IH; auto.
Qed.

(** New ids enter the table in the order of their first contribution. *)
Lemma keys_add_all l : forall ds : score_table,
  Dict.keys (add_all ds l)
  = Dict.keys ds
    ++ filter (fun k => negb (Str.mem k (Dict.keys ds))) (py_set (map fst l)).
Proof.
  induction l as [|[k x] l IH]; intros ds; simpl.
  - now rewrite app_nil_r.
  - change (fold_left _ l ?d) with (add_all d l).
    rewrite IH, keys_score_add, filter_filter.
    destruct (Dict.mem ds k) eqn:E.
    + apply DictFacts.mem_keys, str_mem_in in E. rewrite E. simpl.
      f_equal. apply filter_ext. intros y.
      destruct (String.eqb_spec k y) as [->|Hne]; simpl; auto.
      now rewrite E.
    + assert (Str.mem k (Dict.keys ds) = false) as ->.
      { destruct (Str.mem k (Dict.keys ds)) eqn:E'; auto.
        apply str_mem_in, DictFacts.mem_keys in E'. congruence. }
      simpl. rewrite <- app_assoc. simpl. do 2 f_equal.
      apply filter_ext. intros y. rewrite str_mem_app. simpl.
      rewrite orb_false_r, (String.eqb_sym y k).
      destruct (String.eqb k y), (Str.mem y (Dict.keys ds)); auto.
Qed.

Lemma map_fst_contributions cut stopwords query index documents :
  map fst (contributions cut stopwords query index documents)
  = flat_map (postings_of index) (preprocess cut stopwords query).
Proof.
  unfold contributions.
  induction (preprocess cut stopwords query) as [|t l IH]; simpl; auto.
  rewrite map_app, IH. f_equal.
  unfold contributions_of. rewrite map_map. simpl. apply map_id.
Qed.

Lemma same_content_same_entry (documents : document_list) id1 id2 c :
  NoDup (map snd documents) ->
  In (id1, c) documents -> In (id2, c) documents -> id1 = id2.
Proof.
  induction documents as [|[id c'] documents IH]; simpl; [tauto|].
  intros Hnd H1 H2. inversion Hnd as [|? ? Hc Hnd']; subst.
  destruct H1 as [H1|H1], H2 as [H2|H2].
  - congruence.
  - inversion H1; subst. exfalso. apply Hc. now apply (in_map snd) in H2.
  - inversion H2; subst. exfalso. apply Hc. now apply (in_map snd) in H1.
  - now apply IH.
Qed.

Lemma first_content_distinct (documents : document_list) id content :
  NoDup (map fst documents) ->
  In (id, content) documents ->
  first_content documents id = Some content.
Proof.
  induction documents as [|[id' c'] documents IH]; simpl; [tauto|].
  intros Hnd [Heq|Hin].
  - inversion Heq; subst. now rewrite String.eqb_refl.
  - inversion Hnd as [|? ? Hid Hnd']; subst.
    destruct (String.eqb_spec id' id) as [->|Hne]; auto.
    exfalso. apply Hid. now apply (in_map fst) in Hin.
Qed.

End Distinct.

(** ** What [search] returns *)

Section SearchResults.

Variable cut : string -> list string.
Variable stopwords : list string.

Notation preprocess := (preprocess cut stopwords).
Notation search := (search cut stopwords).
Notation accumulate_scores := (accumulate_scores cut stopwords).

Lemma search_result_sorted query index documents ds :
  scores_result cut stopwords query index documents = Ok ds ->
  search_result cut stopwords query index documents = Ok (sorted_desc ds).
Proof.
  intros H. unfold search_result. rewrite H. f_equal.
  apply read_back_sorted. now apply nodup_keys_scores_result in H.
Qed.

(** C4. Whatever the index, the document list and the query, when the
    loops end with the accumulator [doc_scores], [search] returns all of its
    (id, score) pairs and nothing else (a permutation, so of the same
    length), in descending order of score, the pairs of any one score
    standing in the order they have in the accumulator; and the accumulator
    lists the ids in the order they were first met, scanning the postings
    lists of the query tokens. *)
Theorem search_sorts_all_scores query index documents doc_scores :
  snd (accumulate_scores query {| h_index := index; h_documents := documents |})
  = Ok doc_scores ->
  exists results,
    snd (search query index documents) = Ok results
    /\ Permutation doc_scores results
    /\ length results = length doc_scores
    /\ StronglySorted score_ge results
    /\ (forall v, with_score v results = with_score v doc_scores)
    /\ map fst doc_scores = py_set (flat_map (postings_of index) (preprocess query)).
Proof.
  rewrite accumulate_scores_result. simpl. intros H.
  exists (sorted_desc doc_scores).
  rewrite search_eq. simpl. rewrite (search_result_sorted _ _ _ _ H).
  repeat split.
  - apply sorted_desc_perm.
  - symmetry. apply Permutation_length, sorted_desc_perm.
  - apply sorted_desc_sorted.
  - intros v. apply with_score_sorted_desc.
  - apply scores_result_ok in H. subst doc_scores.
    change (map fst (add_all [] ?l)) with (Dict.keys (add_all [] l)).
    rewrite keys_add_all, map_fst_contributions. simpl.
    induction (py_set _) as [|k l IH]; simpl; congruence.
Qed.

Lemma tokens_loop_absent index documents tokens ds :
  (forall t, In t tokens -> Dict.mem index t = false) ->
  Res.for_each tokens (token_result cut stopwords index documents) ds = Ok ds.
Proof.
  induction tokens as [|t tokens IH]; intros Habs; simpl; auto.
  unfold token_result at 1.
  assert (Ht : Dict.mem index t = false) by (apply Habs; now left).
  unfold Dict.mem in Ht. destruct (Dict.get index t); [discriminate|].
  apply IH. intros t' Hin. apply Habs. now right.
Qed.

(** C6. For every index, document list and query: when the query has no
    token, or none of its tokens is a key of the index, or the index is
    empty, [search] raises nothing and returns the empty list. *)
Theorem search_without_match_is_empty query index documents :
  preprocess query = []
  \/ (forall t, In t (preprocess query) -> Dict.mem index t = false)
  \/ index = [] ->
  snd (search query index documents) = Ok [].
Proof.
  intros H. rewrite search_eq. simpl.
  assert (Habs : forall t, In t (preprocess query) -> Dict.mem index t = false).
  { destruct H as [H|[H|H]]; auto.
    - rewrite H. intros t [].
    - subst index. reflexivity. }
  unfold search_result, scores_result.
  now rewrite (tokens_loop_absent _ _ _ _ Habs).
Qed.

(** Every returned pair carries the score of the closed form. *)
Lemma search_scores query index documents results id s :
  snd (search query index documents) = Ok results ->
  In (id, s) results ->
  s = tfidf_score cut stopwords query index documents id.
Proof.
  rewrite search_eq. simpl. unfold search_result.
  destruct (scores_result _ _ _ _ _) as [ds|] eqn:H; [|discriminate].
  intros Hres Hin. inversion Hres; subst results; clear Hres.
  apply in_map_iff in Hin. destruct Hin as [[k v] [Heq _]].
  simpl in Heq. inversion Heq; subst.
  now apply score_get_scores_result.
Qed.

Lemma Rsum_split_distinct (g : string -> R) x l :
  NoDup l ->
  Rsum (map g l)
  = ((if Str.mem x l then g x else 0)
     + Rsum (map g (filter (fun y => negb (String.eqb x y)) l)))%R.
Proof.
  induction l as [|y l IH]; intros Hnd; simpl.
  - ring.
  - inversion Hnd as [|? ? Hy Hnd']; subst. rewrite (IH Hnd').
    destruct (String.eqb_spec x y) as [->|Hne]; simpl.
    + destruct (Str.mem y l) eqn:E.
      * apply str_mem_in in E. contradiction.
      * ring.
    + ring.
Qed.

Lemma Rsum_by_distinct (g : string -> R) l :
  Rsum (map g l)
  = Rsum (map (fun t => (INR (count_occ string_dec l t) * g t)%R) (py_set l)).
Proof.
  induction l as [|x l IH]; auto.
  cbn [map py_set Rsum fold_right]. fold (Rsum (map g l)).
  rewrite IH.
  rewrite (Rsum_split_distinct _ x (py_set l) (py_set_nodup l)).
  rewrite count_occ_cons_eq by reflexivity. rewrite S_INR.
  assert (Hrest :
    map (fun t => (INR (count_occ string_dec (x :: l) t) * g t)%R)
        (filter (fun y => negb (String.eqb x y)) (py_set l))
    = map (fun t => (INR (count_occ string_dec l t) * g t)%R)
          (filter (fun y => negb (String.eqb x y)) (py_set l))).
  { apply map_ext_in. intros t Ht. apply filter_In in Ht. destruct Ht as [_ Ht].
    apply negb_true_iff in Ht. rewrite count_occ_cons_neq; auto.
    intros ->. rewrite String.eqb_refl in Ht. discriminate. }
  fold (Rsum (map (fun t => (INR (count_occ string_dec (x :: l) t) * g t)%R)
                  (filter (fun y => negb (String.eqb x y)) (py_set l)))).
  rewrite Hrest.
  destruct (Str.mem x (py_set l)) eqn:E.
  - ring.
  - assert (count_occ string_dec l x = 0) as ->.
    { apply count_occ_not_In. intros Hin.
      apply py_set_in, str_mem_in in Hin. congruence. }
    simpl. ring.
Qed.

(** C1, as the code has it. For every index, document list and query,
    each pair that [search] returns carries the sum, over the distinct
    query tokens that are keys of the index, of the token's tf * idf
    contribution to the id multiplied by the number of times the tokenized
    query repeats the token: a token repeated k times counts k times. *)
Theorem search_counts_each_repetition query index documents results id s :
  snd (search query index documents) = Ok results ->
  In (id, s) results ->
  s = tfidf_score_weighted cut stopwords query index documents id.
Proof.
  intros Hres Hin. rewrite (search_scores _ _ _ _ _ _ Hres Hin).
  unfold tfidf_score, tfidf_score_weighted. apply Rsum_by_distinct.
Qed.

End SearchResults.

(** ** The index builder *)

Section Build.

Variable cut : string -> list string.
Variable stopwords : list string.

Notation preprocess := (preprocess cut stopwords).
Notation build_doc := (build_doc cut stopwords).
Notation build_date := (build_date cut stopwords).
Notation build_stock := (build_stock cut stopwords).
Notation build_loop := (build_loop cut stopwords).
Notation build_inverted_index := (build_inverted_index cut stopwords).
Notation index_of_documents := (index_of_documents cut stopwords).
Notation index_document := (index_document cut stopwords).
Notation documents_with := (documents_with cut stopwords).

(** *** Postings *)

Lemma get_append_posting index token id t :
  Dict.get (append_posting index token id) t
  = if String.eqb token t then Some (postings_of index token ++ [id])
    else Dict.get index t.
Proof.
  unfold append_posting, postings_of.
  destruct (Dict.get index token); apply DictFacts.get_set.
Qed.

Lemma get_append_postings id t tokens : forall index,
  NoDup tokens ->
  Dict.get (fold_left (fun index token => append_posting index token id) tokens index) t
  = if Str.mem t tokens then Some (postings_of index t ++ [id]) else Dict.get index t.
Proof.
  induction tokens as [|token tokens IH]; intros index Hnd; simpl; auto.
  inversion Hnd as [|? ? Hnotin Hnd']; subst.
  rewrite (IH _ Hnd'). unfold postings_of at 1.
  rewrite get_append_posting, (String.eqb_sym t token).
  destruct (String.eqb_spec token t) as [->|Hne]; simpl; auto.
  destruct (Str.mem t tokens) eqn:E; auto.
  apply str_mem_in in E. contradiction.
Qed.

Lemma str_mem_py_set t l : Str.mem t (py_set l) = Str.mem t l.
Proof.
  destruct (Str.mem t l) eqn:E.
  - apply (proj1 (str_mem_in _ _)) in E.
    now apply str_mem_in, py_set_in.
  - destruct (Str.mem t (py_set l)) eqn:E'; auto.
    apply (proj1 (str_mem_in _ _)) in E'. apply (proj1 (py_set_in _ _)) in E'.
    apply (proj2 (str_mem_in t l)) in E'. congruence.
Qed.

Lemma get_index_document index doc t :
  Dict.get (index_document index doc) t
  = if Str.mem t (preprocess (snd doc))
    then Some (postings_of index t ++ [fst doc])
    else Dict.get index t.
Proof.
  unfold index_document.
  rewrite get_append_postings by apply py_set_nodup.
  now rewrite str_mem_py_set.
Qed.

Lemma index_of_documents_app documents doc :
  index_of_documents (documents ++ [doc])
  = index_document (index_of_documents documents) doc.
Proof. unfold index_of_documents. now rewrite fold_left_app. Qed.

Lemma documents_with_app t documents doc :
  documents_with t (documents ++ [doc])
  = documents_with t documents
    ++ (if Str.mem t (preprocess (snd doc)) then [fst doc] else []).
Proof.
  unfold documents_with. rewrite filter_app, map_app. simpl.
  now destruct (Str.mem t (preprocess (snd doc))).
Qed.

(** A token is a key exactly when some stored document has it, and its
    postings list is then the ids of those documents, in store order. *)
Lemma get_index_of_documents documents t :
  Dict.get (index_of_documents documents) t
  = match documents_with t documents with
    | [] => None
    | postings => Some postings
    end.
Proof.
  induction documents as [|doc documents IH] using rev_ind; auto.
  rewrite index_of_documents_app, get_index_document, documents_with_app.
  unfold postings_of. rewrite IH.
  destruct (Str.mem t (preprocess (snd doc))).
  - destruct (documents_with t documents); reflexivity.
  - now rewrite app_nil_r.
Qed.

Lemma postings_of_index_of_documents documents t :
  postings_of (index_of_documents documents) t = documents_with t documents.
Proof.
  unfold postings_of. rewrite get_index_of_documents.
  now destruct (documents_with t documents).
Qed.

End Build.

Section BuildInvariant.

Variable cut : string -> list string.
Variable stopwords : list string.

Notation build_doc := (build_doc cut stopwords).
Notation build_date := (build_date cut stopwords).
Notation build_stock := (build_stock cut stopwords).
Notation build_loop := (build_loop cut stopwords).
Notation build_inv := (build_inv cut stopwords).

Lemma fold_left_preserves {A S : Type} (P : S -> Prop) (f : S -> A -> S) l :
  (forall s x, P s -> P (f s x)) -> forall s, P s -> P (fold_left f l s).
Proof.
  intros Hf. induction l as [|x l IH]; intros s Hs; simpl; auto.
Qed.

Lemma build_doc_inv stock_code date st entry :
  build_inv st -> build_inv (build_doc stock_code date st entry).
Proof.
  intros (Hseen & Hnd & Hidx). destruct entry as [doc_id content].
  unfold build_doc. cbv zeta.
  destruct (Str.mem content (b_seen_docs st)) eqn:E.
  - now repeat split.
  - repeat split; simpl.
    + now rewrite map_app, Hseen.
    + rewrite map_app. simpl. apply NoDup_app; auto.
      * repeat constructor. simpl. tauto.
      * intros c Hc [<-|[]]. rewrite <- Hseen in Hc.
        apply str_mem_in in Hc. congruence.
    + now rewrite index_of_documents_app, Hidx.
Qed.

Lemma build_date_inv stock_code st entry :
  build_inv st -> build_inv (build_date stock_code st entry).
Proof.
  destruct entry as [date news_list]. unfold build_date.
  apply fold_left_preserves.
  intros. now apply build_doc_inv.
Qed.

Lemma build_stock_inv st entry : build_inv st -> build_inv (build_stock st entry).
Proof.
  destruct entry as [stock_code stock_data]. unfold build_stock.
  apply fold_left_preserves.
  intros. now apply build_date_inv.
Qed.

Lemma build_loop_inv data : build_inv (build_loop data).
Proof.
  unfold build_loop. apply fold_left_preserves.
  - intros. now apply build_stock_inv.
  - repeat split. constructor.
Qed.

(** *** The contents that get stored *)

Lemma map_snd_enumerate {A : Type} (l : list A) : map snd (enumerate l) = l.
Proof.
  unfold enumerate. generalize 0.
  induction l as [|x l IH]; intros n; simpl; auto.
  now rewrite IH.
Qed.

Lemma build_doc_seen stock_code date st entry c :
  In c (b_seen_docs (build_doc stock_code date st entry))
  <-> In c (b_seen_docs st) \/ c = snd entry.
Proof.
  destruct entry as [doc_id content]. unfold build_doc. cbv zeta.
  destruct (Str.mem content (b_seen_docs st)) eqn:E; simpl.
  - apply str_mem_in in E. intuition (subst; auto).
  - rewrite in_app_iff. simpl. intuition auto.
Qed.

Lemma build_docs_seen stock_code date entries c : forall st,
  In c (b_seen_docs (fold_left (build_doc stock_code date) entries st))
  <-> In c (b_seen_docs st) \/ In c (map snd entries).
Proof.
  induction entries as [|e entries IH]; intros st; simpl.
  - tauto.
  - rewrite IH, build_doc_seen. intuition auto.
Qed.

Lemma build_date_seen stock_code st entry c :
  In c (b_seen_docs (build_date stock_code st entry))
  <-> In c (b_seen_docs st) \/ In c (snd entry).
Proof.
  destruct entry as [date news_list]. unfold build_date.
  now rewrite build_docs_seen, map_snd_enumerate.
Qed.

Lemma build_dates_seen stock_code entries c : forall st,
  In c (b_seen_docs (fold_left (build_date stock_code) entries st))
  <-> In c (b_seen_docs st)
      \/ In c (flat_map (fun date : string * list string => snd date) entries).
Proof.
  induction entries as [|e entries IH]; intros st; simpl.
  - tauto.
  - rewrite IH, build_date_seen, in_app_iff. tauto.
Qed.

Lemma build_stocks_seen entries c : forall st,
  In c (b_seen_docs (fold_left build_stock entries st))
  <-> In c (b_seen_docs st) \/ In c (corpus_contents entries).
Proof.
  unfold corpus_contents.
  induction entries as [|[stock_code stock_data] entries IH]; intros st; simpl.
  - tauto.
  - rewrite IH. unfold Dict.items.
    rewrite build_dates_seen, in_app_iff. tauto.
Qed.

(** The stored contents are the contents of the corpus. *)
Lemma build_loop_contents data c :
  In c (map snd (b_documents (build_loop data))) <-> In c (corpus_contents data).
Proof.
  destruct (build_loop_inv data) as (Hseen & _ & _). rewrite <- Hseen.
  unfold build_loop, Dict.items. rewrite build_stocks_seen. simpl. tauto.
Qed.

End BuildInvariant.

(** ** When [search] returns *)

Section Defined.

Variable cut : string -> list string.
Variable stopwords : list string.

Notation preprocess := (preprocess cut stopwords).
Notation term_frequency := (term_frequency cut stopwords).

Lemma true_div_pos a b : b <> 0 -> true_div a b = Ok (INR a / INR b)%R.
Proof. destruct b; simpl; congruence. Qed.

Lemma math_log_ratio n d :
  n <> 0 -> d <> 0 -> math_log (INR n / INR d) = Ok (ln (INR n / INR d)).
Proof.
  intros Hn Hd. unfold math_log.
  destruct (Rle_dec (INR n / INR d) 0) as [Hle|]; auto.
  exfalso. assert (0 < INR n / INR d)%R; [|lra].
  apply Rdiv_lt_0_compat; apply lt_0_INR; lia.
Qed.

Lemma postings_loop_defined documents token idf postings : forall ds,
  forallb (posting_defined cut stopwords documents) postings = true ->
  Res.for_each postings (posting_result cut stopwords documents token idf) ds
  = Ok (add_all ds
          (map (fun id => (id, (term_frequency token (content_of documents id) * idf)%R))
               postings)).
Proof.
  induction postings as [|id postings IH]; intros ds H; simpl in *; auto.
  apply andb_true_iff in H. destruct H as [Hid H].
  unfold posting_defined in Hid. unfold posting_result at 1, content_of at 1.
  destruct (first_content documents id) as [content|]; [|discriminate].
  apply negb_true_iff, Nat.eqb_neq in Hid.
  rewrite (true_div_pos _ _ Hid). now apply IH.
Qed.

Lemma token_result_defined index documents ds token :
  token_defined cut stopwords index documents token = true ->
  token_result cut stopwords index documents ds token
  = Ok (add_all ds (contributions_of cut stopwords index documents token)).
Proof.
  unfold token_defined, token_result, contributions_of,
    inverse_document_frequency, postings_of.
  destruct (Dict.get index token) as [postings|]; auto.
  intros H. apply andb_true_iff in H. destruct H as [H Hp].
  apply andb_true_iff in H. destruct H as [Hdf Hn].
  apply negb_true_iff, Nat.eqb_neq in Hdf, Hn.
  rewrite (true_div_pos _ _ Hdf), (math_log_ratio _ _ Hn Hdf).
  now apply postings_loop_defined.
Qed.

Lemma tokens_loop_defined index documents tokens : forall ds,
  forallb (token_defined cut stopwords index documents) tokens = true ->
  Res.for_each tokens (token_result cut stopwords index documents) ds
  = Ok (add_all ds (flat_map (contributions_of cut stopwords index documents) tokens)).
Proof.
  induction tokens as [|t tokens IH]; intros ds H; simpl in *; auto.
  apply andb_true_iff in H. destruct H as [Ht H].
  rewrite (token_result_defined _ _ _ _ Ht), (IH _ H).
  now rewrite add_all_app.
Qed.

(** When every check passes, [search] returns the sorted table of the
    contributions. *)
Lemma search_defined_result query index documents :
  search_defined cut stopwords query index documents = true ->
  snd (search cut stopwords query index documents)
  = Ok (sorted_desc (add_all [] (contributions cut stopwords query index documents))).
Proof.
  intros H. rewrite search_eq. simpl.
  apply search_result_sorted. now apply tokens_loop_defined.
Qed.

End Defined.

(** ** What [build_inverted_index] returns *)

Section Built.

Variable cut : string -> list string.
Variable stopwords : list string.

Notation preprocess := (preprocess cut stopwords).
Notation build_inverted_index := (build_inverted_index cut stopwords).
Notation search := (search cut stopwords).
Notation documents_with := (documents_with cut stopwords).

Lemma built_facts data index documents :
  build_inverted_index data = (index, documents) ->
  index = index_of_documents cut stopwords documents
  /\ NoDup (map snd documents)
  /\ (forall c, In c (map snd documents) <-> In c (corpus_contents data)).
Proof.
  unfold build_inverted_index. intros H. inversion H; subst; clear H.
  destruct (build_loop_inv cut stopwords data) as (_ & Hnd & Hidx).
  repeat split; auto; apply build_loop_contents.
Qed.

(** C3. Whatever the corpus, every text that occurs in it, once or several
    times and under whatever stock code and date, is the content of exactly
    one entry of the document list that [build_inverted_index] returns; the
    postings list of every token is the ids of the stored entries whose
    content has the token, one id for each such entry; and two entries of
    the document list with the same content have the same id. *)
Theorem build_stores_each_content_once data index documents :
  build_inverted_index data = (index, documents) ->
  (forall c, In c (corpus_contents data) ->
             count_occ string_dec (map snd documents) c = 1)
  /\ (forall t, postings_of index t = documents_with t documents)
  /\ (forall id1 id2 c,
        In (id1, c) documents -> In (id2, c) documents -> id1 = id2).
Proof.
  intros H. destruct (built_facts _ _ _ H) as (Hidx & Hnd & Hc).
  repeat split.
  - intros c Hin. apply Hc in Hin.
    apply (count_occ_In string_dec) in Hin.
    pose proof (proj1 (NoDup_count_occ string_dec _) Hnd c). lia.
  - intros t. subst index. apply postings_of_index_of_documents.
  - intros id1 id2 c. now apply same_content_same_entry.
Qed.

Lemma Rsum_nonneg l : Forall (fun x => (0 <= x)%R) l -> (0 <= Rsum l)%R.
Proof.
  induction 1 as [|x l Hx Hl IH]; simpl; lra.
Qed.

Lemma term_frequency_nonneg token content :
  (0 <= term_frequency cut stopwords token content)%R.
Proof.
  unfold term_frequency.
  destruct (length (preprocess content)) as [|n].
  - simpl. unfold Rdiv. rewrite Rinv_0. lra.
  - unfold Rdiv. apply Rmult_le_pos.
    + apply pos_INR.
    + left. apply Rinv_0_lt_compat, lt_0_INR. lia.
Qed.

Lemma ln_ratio_nonneg n d : 1 <= d <= n -> (0 <= ln (INR n / INR d))%R.
Proof.
  intros [Hd Hn].
  assert (Hd' : (0 < INR d)%R) by (apply lt_0_INR; lia).
  assert (Hle : (INR d <= INR n)%R) by now apply le_INR.
  assert (H1 : (1 <= INR n / INR d)%R).
  { apply (Rmult_le_reg_r (INR d)); auto. field_simplify; lra. }
  destruct H1 as [H1|H1].
  - rewrite <- ln_1. left. apply ln_increasing; lra.
  - rewrite <- H1, ln_1. lra.
Qed.

Lemma built_postings_length data index documents t postings :
  build_inverted_index data = (index, documents) ->
  Dict.get index t = Some postings ->
  1 <= length postings <= length documents.
Proof.
  intros H Hget. destruct (built_facts _ _ _ H) as (Hidx & _ & _).
  subst index. rewrite get_index_of_documents in Hget.
  assert (Hlen : length (documents_with t documents) <= length documents).
  { unfold documents_with. rewrite length_map. apply filter_length_le. }
  destruct (documents_with t documents) eqn:E; [discriminate|].
  inversion Hget; subst. simpl in *. lia.
Qed.

(** C5. For the index and the document list that [build_inverted_index]
    returns from any corpus: the postings list of every key has at least
    one and at most as many entries as the document list, so that idf =
    ln (N / df) is not negative; and for every query, every score in the
    list that [search] returns is greater than or equal to zero. *)
Theorem search_scores_nonnegative data query index documents :
  build_inverted_index data = (index, documents) ->
  (forall t postings, Dict.get index t = Some postings ->
                      1 <= length postings <= length documents)
  /\ (forall results, snd (search query index documents) = Ok results ->
                      Forall (fun item => (0 <= snd item)%R) results).
Proof.
  intros H. split.
  - intros t postings. now apply built_postings_length with (data := data).
  - intros results Hres. apply Forall_forall. intros [id s] Hin. simpl.
    rewrite (search_scores _ _ _ _ _ _ _ _ Hres Hin).
    apply Rsum_nonneg, Forall_forall. intros x Hx.
    apply in_map_iff in Hx. destruct Hx as [t [<- Ht]].
    apply filter_In in Ht. destruct Ht as [_ Ht].
    unfold Dict.mem in Ht.
    destruct (Dict.get index t) as [postings|] eqn:Hget; [|discriminate].
    apply Rsum_nonneg, Forall_forall. intros y Hy.
    apply in_map_iff in Hy. destruct Hy as [_ [<- _]].
    apply Rmult_le_pos.
    + apply term_frequency_nonneg.
    + unfold inverse_document_frequency, postings_of. rewrite Hget.
      apply ln_ratio_nonneg. eapply built_postings_length; eauto.
Qed.

End Built.

(** ** A term that every document has *)

Section Great.

Variable cut : string -> list string.
Variable stopwords : list string.

Notation preprocess := (preprocess cut stopwords).
Notation build_inverted_index := (build_inverted_index cut stopwords).
Notation search := (search cut stopwords).

Lemma ln_ratio_same n : n <> 0 -> ln (INR n / INR n) = 0%R.
Proof.
  intros Hn. replace (INR n / INR n)%R with 1%R; [apply ln_1|].
  field. apply not_0_INR. lia.
Qed.

Lemma in_tokens_length t content :
  In t (preprocess content) -> Nat.eqb (length (preprocess content)) 0 = false.
Proof. destruct (preprocess content); simpl; [tauto|reflexivity]. Qed.

(** C8. Under any tokenizer that makes ["great"] of the query "great" and
    has "great" among the tokens of "cats are great" and of "dogs are
    great": on the corpus with these two texts under stock "A" and date
    "2020-01-01", the document list has N = 2 entries, the postings list of
    "great" has the df = 2 ids, idf = ln (2 / 2) = 0, and [search] returns
    both documents, in store order, each with the score 0. *)
Theorem great_in_every_document_scores_zero index documents :
  preprocess "great" = ["great"] ->
  In "great" (preprocess "cats are great") ->
  In "great" (preprocess "dogs are great") ->
  build_inverted_index corpus_great = (index, documents) ->
  length documents = 2
  /\ postings_of index "great" = ["A-2020-01-01-0"; "A-2020-01-01-1"]
  /\ inverse_document_frequency index documents "great" = 0%R
  /\ snd (search "great" index documents)
     = Ok [("A-2020-01-01-0", 0%R); ("A-2020-01-01-1", 0%R)].
Proof.
  intros Hq Hcats Hdogs Hbuild.
  destruct (built_facts _ _ _ _ _ Hbuild) as (Hidx & _ & _).
  assert (Hdocs : documents = documents_great).
  { unfold build_inverted_index in Hbuild. now inversion Hbuild. }
  assert (Hpost : postings_of index "great" = ["A-2020-01-01-0"; "A-2020-01-01-1"]).
  { rewrite Hidx, postings_of_index_of_documents, Hdocs.
    unfold documents_with, documents_great. simpl.
    apply str_mem_in in Hcats, Hdogs. now rewrite Hcats, Hdogs. }
  assert (Hidf : inverse_document_frequency index documents "great" = 0%R).
  { unfold inverse_document_frequency. rewrite Hpost, Hdocs.
    now apply ln_ratio_same. }
  repeat split; auto.
  - now rewrite Hdocs.
  - assert (Hget : Dict.get index "great" = Some ["A-2020-01-01-0"; "A-2020-01-01-1"]).
    { unfold postings_of in Hpost. destruct (Dict.get index "great"); congruence. }
    rewrite search_defined_result.
    + unfold contributions. rewrite Hq. simpl. rewrite app_nil_r.
      unfold contributions_of. rewrite Hpost, Hidf. simpl.
      rewrite !Rmult_0_r. unfold add_all. simpl.
      unfold score_add, score_get. simpl. rewrite !Rplus_0_l.
      assert (Rltb 0 0 = false) as -> by (apply Rltb_false; lra).
      reflexivity.
    + unfold search_defined. rewrite Hq. simpl.
      unfold token_defined. rewrite Hget, Hdocs. simpl.
      unfold posting_defined. simpl.
      now rewrite (in_tokens_length _ _ Hcats), (in_tokens_length _ _ Hdogs).
Qed.

End Great.

(** ** Ids and the linear lookup *)

Section Lookup.

Variable cut : string -> list string.
Variable stopwords : list string.

Notation preprocess := (preprocess cut stopwords).

Lemma documents_with_in t (documents : document_list) id :
  In id (documents_with cut stopwords t documents) ->
  exists content, In (id, content) documents /\ In t (preprocess content).
Proof.
  unfold documents_with. intros Hin.
  apply in_map_iff in Hin. destruct Hin as [[id' content] [Hid Hin]].
  apply filter_In in Hin. destruct Hin as [Hin Ht].
  simpl in *. subst id'. exists content. split; auto.
  now apply str_mem_in.
Qed.

(** When the ids of the returned document list are pairwise distinct,
    every posting is the id of one entry, that entry has a token, and
    [search] returns for every query. *)
Lemma search_returns_on_distinct_ids data index documents query :
  build_inverted_index cut stopwords data = (index, documents) ->
  NoDup (map fst documents) ->
  (forall t id, In id (postings_of index t) ->
                exists content,
                  In (id, content) documents
                  /\ first_content documents id = Some content
                  /\ preprocess content <> [])
  /\ exists results, snd (search cut stopwords query index documents) = Ok results.
Proof.
  intros Hbuild Hnd.
  destruct (built_facts _ _ _ _ _ Hbuild) as (Hidx & _ & _).
  assert (Hpost : forall t id, In id (postings_of index t) ->
            exists content,
              In (id, content) documents
              /\ first_content documents id = Some content
              /\ preprocess content <> []).
  { intros t id Hin. rewrite Hidx, postings_of_index_of_documents in Hin.
    apply documents_with_in in Hin. destruct Hin as [content [Hin Ht]].
    exists content. repeat split; auto.
    - now apply first_content_distinct.
    - intros Hnil. now rewrite Hnil in Ht. }
  split; auto.
  eexists. apply search_defined_result.
  unfold search_defined. apply forallb_forall. intros t _.
  unfold token_defined.
  destruct (Dict.get index t) as [postings|] eqn:Hget; auto.
  destruct (built_postings_length _ _ _ _ _ _ _ Hbuild Hget) as [Hdf Hn].
  assert (Hp : postings_of index t = postings) by (unfold postings_of; now rewrite Hget).
  repeat (apply andb_true_iff; split).
  - apply negb_true_iff, Nat.eqb_neq. lia.
  - apply negb_true_iff, Nat.eqb_neq. lia.
  - apply forallb_forall. intros id Hin. rewrite <- Hp in Hin.
    destruct (Hpost t id Hin) as [content (_ & Hfirst & Hne)].
    unfold posting_defined. rewrite Hfirst.
    apply negb_true_iff, Nat.eqb_neq.
    destruct (preprocess content); simpl; congruence.
Qed.

End Lookup.

(** ** When the ids are pairwise distinct *)

Section DistinctIds.

Variable cut : string -> list string.
Variable stopwords : list string.

Notation build_doc := (build_doc cut stopwords).
Notation build_date := (build_date cut stopwords).
Notation build_stock := (build_stock cut stopwords).
Notation build_loop := (build_loop cut stopwords).

(** *** The ids are injective in the parts that have no "-" *)

Lemma split_at_dash a a' r r' :
  no_dash a = true -> no_dash a' = true ->
  (a ++ String "-" r)%string = (a' ++ String "-" r')%string ->
  a = a' /\ r = r'.
Proof.
  revert a'. induction a as [|c a IH]; intros [|c' a'] Ha Ha' Heq;
    simpl in *.
  - inversion Heq. auto.
  - inversion Heq; subst. now rewrite Ascii.eqb_refl in Ha'.
  - inversion Heq; subst. now rewrite Ascii.eqb_refl in Ha.
  - inversion Heq; subst.
    apply andb_true_iff in Ha, Ha'.
    destruct (IH a' (proj2 Ha) (proj2 Ha') H1) as [-> ->]. auto.
Qed.

Lemma of_nat_inj n n' : Str.of_nat n = Str.of_nat n' -> n = n'.
Proof.
  unfold Str.of_nat. intros Heq.
  apply DecimalNat.Unsigned.to_uint_inj.
  pose proof (NilEmpty.usu (Nat.to_uint n)) as H.
  rewrite Heq, NilEmpty.usu in H. congruence.
Qed.

Lemma make_doc_id_inj s d n s' d' n' :
  no_dash s = true -> no_dash d = true ->
  no_dash s' = true -> no_dash d' = true ->
  make_doc_id s d n = make_doc_id s' d' n' ->
  s = s' /\ d = d' /\ n = n'.
Proof.
  unfold make_doc_id. intros Hs Hd Hs' Hd' Heq.
  apply split_at_dash in Heq; auto. destruct Heq as [-> Heq].
  apply split_at_dash in Heq; auto. destruct Heq as [-> Heq].
  apply of_nat_inj in Heq. auto.
Qed.

(** *** The ids of a corpus with such keys *)

Lemma NoDup_flat_map {A B : Type} (f : A -> list B) l :
  NoDup l ->
  (forall x, In x l -> NoDup (f x)) ->
  (forall x y b, In x l -> In y l -> In b (f x) -> In b (f y) -> x = y) ->
  NoDup (flat_map f l).
Proof.
  induction 1 as [|x l Hx Hnd IH]; intros Hf Hdisj; simpl.
  - constructor.
  - apply NoDup_app.
    + apply Hf. now left.
    + apply IH.
      * intros y Hy. apply Hf. now right.
      * intros y z b Hy Hz. apply Hdisj; now right.
    + intros b Hb Hin. apply in_flat_map in Hin. destruct Hin as [y [Hy Hby]].
      assert (x = y) by (apply (Hdisj x y b); simpl; auto).
      subst. contradiction.
Qed.

Lemma same_key_same_entry {V : Type} (d : Dict.t V) (x y : string * V) :
  NoDup (Dict.keys d) -> In x d -> In y d -> fst x = fst y -> x = y.
Proof.
  unfold Dict.keys. induction d as [|e d IH]; simpl; [tauto|].
  intros Hnd Hx Hy Heq. inversion Hnd as [|? ? He Hnd']; subst.
  destruct Hx as [->|Hx], Hy as [->|Hy]; auto.
  - exfalso. apply He. rewrite Heq. now apply in_map.
  - exfalso. apply He. rewrite <- Heq. now apply in_map.
Qed.

Lemma in_date_ids stock_code date id :
  In id (date_ids stock_code date) ->
  exists n, id = make_doc_id stock_code (fst date) n.
Proof.
  unfold date_ids. intros Hin. apply in_map_iff in Hin.
  destruct Hin as [n [<- _]]. now exists n.
Qed.

Lemma corpus_ids_distinct data :
  distinct_keys data -> dash_free_keys data -> NoDup (corpus_ids data).
Proof.
  intros [Hstocks Hdates] Hfree. unfold corpus_ids.
  apply NoDup_flat_map.
  - now apply NoDup_map_inv in Hstocks.
  - intros stock Hstock. unfold stock_ids.
    destruct (Hfree stock Hstock) as [Hs Hd].
    apply NoDup_flat_map.
    + specialize (Hdates stock Hstock). now apply NoDup_map_inv in Hdates.
    + intros date Hdate. unfold date_ids.
      apply NoDup_map_NoDup_ForallPairs; [|apply seq_NoDup].
      intros n n' _ _ Heq.
      apply make_doc_id_inj in Heq; auto; tauto.
    + intros date date' id Hdate Hdate' Hid Hid'.
      apply in_date_ids in Hid, Hid'.
      destruct Hid as [n ->], Hid' as [n' Heq].
      apply make_doc_id_inj in Heq; auto.
      apply (same_key_same_entry (snd stock)); auto; tauto.
  - intros stock stock' id Hstock Hstock' Hid Hid'.
    unfold stock_ids in Hid, Hid'.
    apply in_flat_map in Hid, Hid'.
    destruct Hid as [date [Hdate Hid]], Hid' as [date' [Hdate' Hid']].
    apply in_date_ids in Hid, Hid'.
    destruct Hid as [n ->], Hid' as [n' Heq].
    destruct (Hfree stock Hstock) as [Hs Hd].
    destruct (Hfree stock' Hstock') as [Hs' Hd'].
    apply make_doc_id_inj in Heq; auto.
    apply (same_key_same_entry data); auto; tauto.
Qed.

(** *** The stored ids are among them, in order *)

Lemma build_docs_ids stock_code date rest entries : forall st,
  NoDup (map fst (b_documents st)
         ++ map (make_doc_id stock_code date) (map fst entries) ++ rest) ->
  NoDup (map fst (b_documents (fold_left (build_doc stock_code date) entries st))
         ++ rest).
Proof.
  induction entries as [|[doc_id content] entries IH]; intros st Hnd; simpl in *.
  - exact Hnd.
  - apply IH. unfold build_doc.
    destruct (Str.mem content (b_seen_docs st)); simpl.
    + now apply NoDup_remove_1 in Hnd.
    + now rewrite map_app, <- app_assoc.
Qed.

Lemma map_fst_enumerate {A : Type} (l : list A) :
  map fst (enumerate l) = seq 0 (length l).
Proof.
  unfold enumerate. generalize 0.
  induction l as [|x l IH]; intros n; simpl; auto.
  now rewrite IH.
Qed.

Lemma build_dates_ids stock_code rest dates : forall st,
  NoDup (map fst (b_documents st) ++ flat_map (date_ids stock_code) dates ++ rest) ->
  NoDup (map fst (b_documents (fold_left (build_date stock_code) dates st)) ++ rest).
Proof.
  induction dates as [|[date news_list] dates IH]; intros st Hnd; simpl in *.
  - exact Hnd.
  - apply IH. apply build_docs_ids.
    rewrite map_fst_enumerate. unfold date_ids in Hnd. simpl in Hnd.
    now rewrite <- app_assoc in Hnd.
Qed.

Lemma build_stocks_ids stocks : forall st,
  NoDup (map fst (b_documents st) ++ corpus_ids stocks) ->
  NoDup (map fst (b_documents (fold_left build_stock stocks st))).
Proof.
  unfold corpus_ids.
  induction stocks as [|[stock_code stock_data] stocks IH]; intros st Hnd;
    simpl in *.
  - now rewrite app_nil_r in Hnd.
  - apply IH. apply build_dates_ids. exact Hnd.
Qed.

(** Distinct keys without a "-" give pairwise distinct ids in the
    document list. *)
Lemma built_ids_distinct data index documents :
  distinct_keys data -> dash_free_keys data ->
  build_inverted_index cut stopwords data = (index, documents) ->
  NoDup (map fst documents).
Proof.
  intros Hkeys Hfree Hbuild. unfold build_inverted_index in Hbuild.
  inversion Hbuild; subst. unfold build_loop.
  apply build_stocks_ids. simpl. now apply corpus_ids_distinct.
Qed.

Lemma nodup_map_fst_filter {A B : Type} (p : A * B -> bool) (l : list (A * B)) :
  NoDup (map fst l) -> NoDup (map fst (filter p l)).
Proof.
  induction l as [|x l IH]; simpl; auto.
  intros Hnd. inversion Hnd as [|? ? Hx Hnd']; subst.
  destruct (p x); simpl; auto.
  constructor; auto.
  intros Hin. apply Hx. apply in_map_iff in Hin.
  destruct Hin as [y [Hy Hin]]. apply filter_In in Hin.
  rewrite <- Hy. apply in_map. tauto.
Qed.

Lemma filter_eqb_nodup id l :
  NoDup l -> filter (String.eqb id) l = if Str.mem id l then [id] else [].
Proof.
  induction l as [|x l IH]; simpl; auto.
  intros Hnd. inversion Hnd as [|? ? Hx Hnd']; subst.
  rewrite (IH Hnd').
  destruct (String.eqb_spec id x) as [->|Hne]; simpl; auto.
  destruct (Str.mem x l) eqn:E; auto.
  apply str_mem_in in E. contradiction.
Qed.

(** With pairwise distinct ids a token gives an id one tf * idf when the
    id is in its postings list, and nothing otherwise. *)
Lemma token_contribution_distinct_ids data index documents id token :
  build_inverted_index cut stopwords data = (index, documents) ->
  NoDup (map fst documents) ->
  token_contribution cut stopwords index documents id token
  = if Str.mem id (postings_of index token)
    then (term_frequency cut stopwords token (content_of documents id)
          * inverse_document_frequency index documents token)%R
    else 0%R.
Proof.
  intros Hbuild Hnd.
  destruct (built_facts _ _ _ _ _ Hbuild) as (Hidx & _ & _).
  unfold token_contribution. rewrite filter_eqb_nodup.
  - destruct (Str.mem id (postings_of index token)); simpl; ring.
  - rewrite Hidx, postings_of_index_of_documents.
    now apply nodup_map_fst_filter.
Qed.

(** On a corpus whose keys are distinct and have no "-", every posting is
    the id of exactly one entry of the document list, that entry has a
    token, and [search] returns for every query. *)
Lemma search_returns_without_dash data index documents query :
  distinct_keys data -> dash_free_keys data ->
  build_inverted_index cut stopwords data = (index, documents) ->
  (forall t id, In id (postings_of index t) ->
     exists content,
       In (id, content) documents
       /\ (forall content', In (id, content') documents -> content' = content)
       /\ preprocess cut stopwords content <> [])
  /\ exists results, snd (search cut stopwords query index documents) = Ok results.
Proof.
  intros Hkeys Hfree Hbuild.
  assert (Hnd : NoDup (map fst documents)) by (eapply built_ids_distinct; eauto).
  destruct (search_returns_on_distinct_ids _ _ _ _ _ query Hbuild Hnd)
    as [Hpost Hres].
  split; auto.
  intros t id Hin. destruct (Hpost t id Hin) as [content (Hc & Hfirst & Hne)].
  exists content. repeat split; auto.
  intros content' Hc'.
  assert (Hfirst' : first_content documents id = Some content')
    by (eapply first_content_distinct; eauto).
  congruence.
Qed.

End DistinctIds.

(** ** Examples *)

(** C10 fails on the code. The stock "A-B" with the date "C" and the stock
    "A" with the date "B-C" spell the same id "A-B-C-0" for their first
    text: the document list that the builder returns holds two entries
    under the id of the posting of "great", the linear lookup finds the
    first, which has no token, and the division by its token count raises
    [ZeroDivisionError] instead of returning. *)
Example clash_raises_zero_division :
  build_inverted_index run_cut [] corpus_clash = (index_clash, documents_clash)
  /\ postings_of index_clash "great" = ["A-B-C-0"]
  /\ map fst documents_clash = ["A-B-C-0"; "A-B-C-0"]
  /\ preprocess run_cut [] (content_of documents_clash "A-B-C-0") = []
  /\ snd (search run_cut [] "great" index_clash documents_clash)
     = Raise ZeroDivisionError.
Proof.
  repeat split.
  rewrite search_eq. simpl snd.
  unfold search_result, scores_result.
  replace (preprocess run_cut [] "great") with ["great"] by reflexivity.
  cbn [Res.for_each]. unfold token_result, index_clash, documents_clash.
  cbn [Dict.get String.eqb Ascii.eqb Bool.eqb length].
  rewrite true_div_pos by discriminate.
  rewrite math_log_ratio by discriminate.
  reflexivity.
Qed.

Lemma tfidf_great_pair_pos : (0 < tfidf_great_pair)%R.
Proof.
  unfold tfidf_great_pair. simpl INR.
  replace ((1 + 1) / 1)%R with 2%R by field.
  assert (0 < ln 2)%R; [|lra].
  rewrite <- ln_1. apply ln_increasing; lra.
Qed.

Lemma search_great_great :
  snd (search run_cut [] "great great" index_pair documents_pair)
  = Ok [("A-d-0", (0 + tfidf_great_pair + tfidf_great_pair)%R)].
Proof. now rewrite search_defined_result. Qed.

Lemma search_great :
  snd (search run_cut [] "great" index_pair documents_pair)
  = Ok [("A-d-0", (0 + tfidf_great_pair)%R)].
Proof. now rewrite search_defined_result. Qed.

(** C1, as stated, fails. The query "great great" has the token "great"
    twice; the one matching document gets twice the tf * idf of "great",
    not the score that counts each distinct token once. *)
Example repeated_token_counts_twice :
  build_inverted_index run_cut [] corpus_pair = (index_pair, documents_pair)
  /\ preprocess run_cut [] "great great" = ["great"; "great"]
  /\ exists s,
       snd (search run_cut [] "great great" index_pair documents_pair)
       = Ok [("A-d-0", s)]
       /\ s <> tfidf_score_distinct run_cut [] "great great"
                 index_pair documents_pair "A-d-0".
Proof.
  repeat split.
  exists (0 + tfidf_great_pair + tfidf_great_pair)%R. split.
  - apply search_great_great.
  - replace (tfidf_score_distinct _ _ _ _ _ _)
      with (tfidf_great_pair + 0 + 0)%R by reflexivity.
    pose proof tfidf_great_pair_pos. lra.
Qed.

(** ** The builder on loaded values *)

Section LoadedFacts.

Variable cut_value : json_value -> result (list string).
Variable stopwords : list string.

Notation build_doc := (Loaded.build_doc cut_value stopwords).
Notation build_date := (Loaded.build_date cut_value stopwords).
Notation build_stock := (Loaded.build_stock cut_value stopwords).
Notation build_loaded := (Loaded.build_inverted_index cut_value stopwords).

(** A loop raises as soon as one of its elements makes the body raise in
    every state. *)
Lemma for_each_raises {A S : Type} (body : S -> A -> result S) l :
  (exists x, In x l /\ forall s, exists e, body s x = Raise e) ->
  forall s, exists e, Res.for_each l body s = Raise e.
Proof.
  intros [x [Hin Hx]]. induction l as [|y l IH]; [destruct Hin|].
  intros s. simpl. destruct (body s y) as [s'|e] eqn:E.
  - destruct Hin as [->|Hin]; auto.
    destruct (Hx s) as [e He]. congruence.
  - now exists e.
Qed.




End LoadedFacts.

(** On a corpus of the documented type the two builders agree. *)

Section Agreement.

Variable cut : string -> list string.
Variable cut_value : json_value -> result (list string).
Variable stopwords : list string.

Hypothesis cut_value_str : forall s, cut_value (JStr s) = Ok (cut s).

Lemma seen_contains_str c seen :
  Loaded.seen_contains (JStr c) (map JStr seen) = Ok (Str.mem c seen).
Proof.
  unfold Loaded.seen_contains, Str.mem. simpl. f_equal.
  induction seen as [|x seen IH]; simpl; auto.
  now rewrite IH.
Qed.

Lemma for_each_agrees {A B S T : Type} (f : S -> A -> S) (g : T -> B -> result T)
      (phi : S -> T) (psi : A -> B) :
  (forall s a, g (phi s) (psi a) = Ok (phi (f s a))) ->
  forall l s, Res.for_each (map psi l) g (phi s) = Ok (phi (fold_left f l s)).
Proof.
  intros Hstep l. induction l as [|a l IH]; intros s; simpl; auto.
  now rewrite Hstep.
Qed.

Lemma enumerate_map {A B : Type} (f : A -> B) (l : list A) :
  enumerate (map f l)
  = map (fun entry : nat * A => (fst entry, f (snd entry))) (enumerate l).
Proof.
  unfold enumerate. generalize 0.
  induction l as [|x l IH]; intros n; simpl; auto.
  now rewrite IH.
Qed.

Lemma build_doc_agrees stock_code date st entry :
  Loaded.build_doc cut_value stopwords stock_code date (loaded_state st)
                   (fst entry, JStr (snd entry))
  = Ok (loaded_state (build_doc cut stopwords stock_code date st entry)).
Proof.
  destruct entry as [doc_id content].
  unfold Loaded.build_doc, build_doc. cbn [fst snd].
  unfold loaded_state at 1. cbn [Loaded.b_seen_docs].
  rewrite seen_contains_str.
  destruct (Str.mem content (b_seen_docs st)); auto.
  unfold Loaded.preprocess. rewrite cut_value_str.
  unfold loaded_state. simpl. now rewrite !map_app.
Qed.

Lemma build_date_agrees stock_code st entry :
  Loaded.build_date cut_value stopwords stock_code (loaded_state st)
                    (fst entry, JList (map JStr (snd entry)))
  = Ok (loaded_state (build_date cut stopwords stock_code st entry)).
Proof.
  destruct entry as [date news_list].
  unfold Loaded.build_date, build_date. simpl. rewrite enumerate_map.
  apply for_each_agrees. intros. apply build_doc_agrees.
Qed.

Lemma build_stock_agrees st (entry : string * Dict.t (list string)) :
  Loaded.build_stock cut_value stopwords (loaded_state st)
    (fst entry,
     JDict (map (fun date : string * list string =>
                   (fst date, JList (map JStr (snd date)))) (snd entry)))
  = Ok (loaded_state (build_stock cut stopwords st entry)).
Proof.
  destruct entry as [stock_code stock_data].
  unfold Loaded.build_stock, build_stock. simpl.
  apply (for_each_agrees (build_date cut stopwords stock_code)). intros.
  apply build_date_agrees.
Qed.

Lemma loaded_build_agrees data :
  Loaded.build_inverted_index cut_value stopwords (Loaded.of_corpus data)
  = Ok (fst (build_inverted_index cut stopwords data),
        map (fun doc : string * string => (fst doc, JStr (snd doc)))
            (snd (build_inverted_index cut stopwords data))).
Proof.
  unfold Loaded.build_inverted_index, Loaded.of_corpus, build_inverted_index,
    build_loop. simpl.
  change Loaded.build_init with (loaded_state build_init).
  rewrite (for_each_agrees (build_stock cut stopwords)); auto.
  intros. apply build_stock_agrees.
Qed.

End Agreement.


(** ** Instances on the example corpora *)

Lemma search_counts_each_repetition_witness :
  snd (search run_cut [] "great great" index_pair documents_pair)
  = Ok [("A-d-0", (0 + tfidf_great_pair + tfidf_great_pair)%R)]
  /\ (0 + tfidf_great_pair + tfidf_great_pair)%R
     = tfidf_score_weighted run_cut [] "great great" index_pair documents_pair "A-d-0".
Proof.
  assert (H : snd (search run_cut [] "great great" index_pair documents_pair)
              = Ok [("A-d-0", (0 + tfidf_great_pair + tfidf_great_pair)%R)])
    by now rewrite search_defined_result.
  split; [exact H|].
  apply (search_counts_each_repetition run_cut [] "great great" index_pair
           documents_pair _ "A-d-0" _ H).
  now left.
Defined.

Lemma build_stores_each_content_once_witness :
  In "cats are great" (corpus_contents corpus_repeat)
  /\ count_occ string_dec (corpus_contents corpus_repeat) "cats are great" = 2
  /\ count_occ string_dec
       (map snd (snd (build_inverted_index run_cut [] corpus_repeat)))
       "cats are great" = 1
  /\ postings_of (fst (build_inverted_index run_cut [] corpus_repeat)) "cats"
     = ["A-d1-0"].
Proof.
  destruct (build_stores_each_content_once run_cut [] corpus_repeat
              (fst (build_inverted_index run_cut [] corpus_repeat))
              (snd (build_inverted_index run_cut [] corpus_repeat))
              eq_refl) as (Hcount & Hpost & _).
  assert (Hin : In "cats are great" (corpus_contents corpus_repeat))
    by (simpl; tauto).
  split; [exact Hin|]. split; [reflexivity|]. split.
  - exact (Hcount _ Hin).
  - rewrite Hpost. reflexivity.
Defined.

Lemma search_sorts_all_scores_witness :
  snd (accumulate_scores run_cut [] "dogs great"
         {| h_index := index_pair; h_documents := documents_pair |})
  = Ok (add_all [] (contributions run_cut [] "dogs great" index_pair documents_pair))
  /\ map fst (add_all [] (contributions run_cut [] "dogs great" index_pair documents_pair))
     = ["A-d-1"; "A-d-0"]
  /\ exists results,
       snd (search run_cut [] "dogs great" index_pair documents_pair) = Ok results
       /\ length results = 2
       /\ StronglySorted score_ge results.
Proof.
  assert (H : snd (accumulate_scores run_cut [] "dogs great"
                     {| h_index := index_pair; h_documents := documents_pair |})
              = Ok (add_all [] (contributions run_cut [] "dogs great"
                                  index_pair documents_pair))).
  { rewrite accumulate_scores_result. simpl snd. unfold scores_result.
    now rewrite tokens_loop_defined. }
  destruct (search_sorts_all_scores run_cut [] "dogs great" index_pair
              documents_pair _ H) as (results & Hres & _ & Hlen & Hsorted & _).
  split; [exact H|]. split; [reflexivity|].
  exists results. split; [exact Hres|]. split; [exact Hlen|exact Hsorted].
Defined.

Lemma search_scores_nonnegative_witness :
  build_inverted_index run_cut [] corpus_pair = (index_pair, documents_pair)
  /\ snd (search run_cut [] "great" index_pair documents_pair)
     = Ok [("A-d-0", (0 + tfidf_great_pair)%R)]
  /\ 1 <= length ["A-d-0"] <= length documents_pair
  /\ Forall (fun item : string * R => (0 <= snd item)%R)
            [("A-d-0", (0 + tfidf_great_pair)%R)].
Proof.
  assert (Hb : build_inverted_index run_cut [] corpus_pair
               = (index_pair, documents_pair)) by reflexivity.
  assert (H : snd (search run_cut [] "great" index_pair documents_pair)
              = Ok [("A-d-0", (0 + tfidf_great_pair)%R)])
    by now rewrite search_defined_result.
  destruct (search_scores_nonnegative run_cut [] corpus_pair "great" index_pair
              documents_pair Hb) as [Hlen Hpos].
  split; [exact Hb|]. split; [exact H|]. split.
  - exact (Hlen "great" ["A-d-0"] eq_refl).
  - exact (Hpos _ H).
Defined.

Lemma search_without_match_is_empty_witness :
  (forall t, In t (preprocess run_cut [] "small bird") ->
             Dict.mem index_pair t = false)
  /\ snd (search run_cut [] "small bird" index_pair documents_pair) = Ok []
  /\ snd (search run_cut [] "   " index_pair documents_pair) = Ok []
  /\ snd (search run_cut [] "great" [] documents_pair) = Ok [].
Proof.
  assert (H : forall t, In t (preprocess run_cut [] "small bird") ->
                        Dict.mem index_pair t = false).
  { simpl. intros t [<-|[<-|[]]]; reflexivity. }
  split; [exact H|]. split; [|split].
  - apply (search_without_match_is_empty run_cut [] "small bird"). right. now left.
  - apply (search_without_match_is_empty run_cut [] "   "). now left.
  - apply (search_without_match_is_empty run_cut [] "great"). right. now right.
Defined.


Lemma great_in_every_document_scores_zero_witness :
  preprocess run_cut [] "great" = ["great"]
  /\ In "great" (preprocess run_cut [] "cats are great")
  /\ In "great" (preprocess run_cut [] "dogs are great")
  /\ snd (search run_cut [] "great"
            (fst (build_inverted_index run_cut [] corpus_great))
            (snd (build_inverted_index run_cut [] corpus_great)))
     = Ok [("A-2020-01-01-0", 0%R); ("A-2020-01-01-1", 0%R)].
Proof.
  assert (Hq : preprocess run_cut [] "great" = ["great"]) by reflexivity.
  assert (Hc : In "great" (preprocess run_cut [] "cats are great"))
    by (simpl; tauto).
  assert (Hd : In "great" (preprocess run_cut [] "dogs are great"))
    by (simpl; tauto).
  split; [exact Hq|]. split; [exact Hc|]. split; [exact Hd|].
  apply (great_in_every_document_scores_zero run_cut [] _ _ Hq Hc Hd eq_refl).
Defined.

(** * Further properties of the builder *)

Section BuilderOrder.

Variable cut : string -> list string.
Variable stopwords : list string.

Notation build_doc := (build_doc cut stopwords).
Notation build_date := (build_date cut stopwords).
Notation build_stock := (build_stock cut stopwords).
Notation build_loop := (build_loop cut stopwords).
Notation build_inverted_index := (build_inverted_index cut stopwords).
Notation preprocess := (preprocess cut stopwords).

(** *** The order of the document list *)

Lemma build_doc_remember stock_code date st entry :
  b_seen_docs (build_doc stock_code date st entry)
  = remember (b_seen_docs st) (snd entry).
Proof.
  destruct entry as [doc_id content]. unfold build_doc, remember. simpl.
  now destruct (Str.mem content (b_seen_docs st)).
Qed.

Lemma build_docs_remember stock_code date entries : forall st,
  b_seen_docs (fold_left (build_doc stock_code date) entries st)
  = fold_left remember (map snd entries) (b_seen_docs st).
Proof.
  induction entries as [|e entries IH]; intros st; simpl; auto.
  now rewrite IH, build_doc_remember.
Qed.

Lemma build_dates_remember stock_code dates : forall st,
  b_seen_docs (fold_left (build_date stock_code) dates st)
  = fold_left remember
      (flat_map (fun date : string * list string => snd date) dates)
      (b_seen_docs st).
Proof.
  induction dates as [|[date news_list] dates IH]; intros st; simpl; auto.
  rewrite IH, fold_left_app. f_equal.
  unfold build_date. now rewrite build_docs_remember, map_snd_enumerate.
Qed.

Lemma build_stocks_remember stocks : forall st,
  b_seen_docs (fold_left build_stock stocks st)
  = fold_left remember (corpus_contents stocks) (b_seen_docs st).
Proof.
  unfold corpus_contents.
  induction stocks as [|[stock_code stock_data] stocks IH]; intros st; simpl; auto.
  rewrite IH, fold_left_app. f_equal.
  unfold build_stock, Dict.items. apply build_dates_remember.
Qed.

Lemma fold_remember l : forall seen,
  fold_left remember l seen
  = seen ++ filter (fun c => negb (Str.mem c seen)) (py_set l).
Proof.
  induction l as [|c l IH]; intros seen; simpl.
  - now rewrite app_nil_r.
  - rewrite IH, filter_filter. unfold remember.
    destruct (Str.mem c seen) eqn:E; simpl.
    + f_equal. apply filter_ext. intros y.
      destruct (String.eqb_spec c y) as [->|Hne]; simpl; auto.
      now rewrite E.
    + rewrite <- app_assoc. simpl. do 2 f_equal.
      apply filter_ext. intros y. rewrite str_mem_app. simpl.
      rewrite orb_false_r, (String.eqb_sym y c).
      destruct (String.eqb c y), (Str.mem y seen); auto.
Qed.

Lemma filter_all_true {A : Type} (p : A -> bool) l :
  (forall x, In x l -> p x = true) -> filter p l = l.
Proof.
  induction l as [|x l IH]; intros H; simpl; auto.
  rewrite (H x) by now left. f_equal. apply IH. intros y Hy. apply H. now right.
Qed.

(** X1. The document list that [build_inverted_index] returns holds the
    distinct texts of the corpus in the order of their first occurrence,
    stocks, dates and news lists being read in corpus order. *)
Theorem documents_are_first_occurrences data index documents :
  build_inverted_index data = (index, documents) ->
  map snd documents = py_set (corpus_contents data).
Proof.
  unfold build_inverted_index. intros H. inversion H; subst; clear H.
  destruct (build_loop_inv cut stopwords data) as (Hseen & _ & _).
  rewrite <- Hseen. unfold build_loop, Dict.items.
  rewrite build_stocks_remember, fold_remember. simpl.
  now apply filter_all_true.
Qed.

(** *** The place that an id names *)

Lemma fold_left_preserves_in {A S : Type} (P : S -> Prop) (f : S -> A -> S) l :
  (forall s x, In x l -> P s -> P (f s x)) ->
  forall s, P s -> P (fold_left f l s).
Proof.
  induction l as [|x l IH]; intros Hf s Hs; simpl; auto.
  apply IH.
  - intros s' y Hy. apply Hf. now right.
  - apply Hf; auto. now left.
Qed.

Lemma in_combine_seq {A : Type} (l : list A) : forall k n x,
  In (n, x) (combine (seq k (length l)) l) ->
  k <= n /\ nth_error l (n - k) = Some x.
Proof.
  induction l as [|y l IH]; intros k n x Hin; simpl in *; [tauto|].
  destruct Hin as [Heq|Hin].
  - inversion Heq; subst. now rewrite Nat.sub_diag.
  - apply IH in Hin. destruct Hin as [Hk Hnth]. split; [lia|].
    replace (n - k) with (S (n - S k)) by lia. exact Hnth.
Qed.

Lemma in_enumerate {A : Type} (l : list A) n x :
  In (n, x) (enumerate l) -> nth_error l n = Some x.
Proof.
  unfold enumerate. intros Hin. apply in_combine_seq in Hin.
  now rewrite Nat.sub_0_r in Hin.
Qed.

Lemma build_loop_stored_from data :
  Forall (stored_from data) (b_documents (build_loop data)).
Proof.
  unfold build_loop, Dict.items.
  apply (fold_left_preserves_in
           (fun st => Forall (stored_from data) (b_documents st))); [|constructor].
  intros st [stock_code stock_data] Hstock Hst. unfold build_stock, Dict.items.
  apply (fold_left_preserves_in
           (fun st => Forall (stored_from data) (b_documents st))); auto.
  clear st Hst. intros st [date news_list] Hdate Hst. unfold build_date.
  apply (fold_left_preserves_in
           (fun st => Forall (stored_from data) (b_documents st))); auto.
  clear st Hst. intros st [doc_id content] Hdoc Hst. unfold build_doc.
  destruct (Str.mem content (b_seen_docs st)); auto. simpl.
  apply Forall_app. split; auto. constructor; [|constructor].
  exists stock_code, stock_data, date, news_list, doc_id.
  repeat split; auto. now apply in_enumerate.
Qed.

(** X2. Every entry (id, content) of the document list that
    [build_inverted_index] returns comes from a place of the corpus: the
    content stands at some position n of the news list of a date of a
    stock, and the id is made of that stock code, that date and that n, the
    position in the list as given, texts that were skipped included. *)
Theorem stored_id_names_original_position data index documents id content :
  build_inverted_index data = (index, documents) ->
  In (id, content) documents ->
  exists stock_code stock_data date news_list n,
    In (stock_code, stock_data) data
    /\ In (date, news_list) stock_data
    /\ nth_error news_list n = Some content
    /\ id = make_doc_id stock_code date n.
Proof.
  unfold build_inverted_index. intros H Hin. inversion H; subst; clear H.
  pose proof (build_loop_stored_from data) as Hall.
  rewrite Forall_forall in Hall. exact (Hall _ Hin).
Qed.

End BuilderOrder.

Section BuilderIndex.

Variable cut : string -> list string.
Variable stopwords : list string.

Notation build_inverted_index := (build_inverted_index cut stopwords).
Notation preprocess := (preprocess cut stopwords).

Lemma nodup_keys_append_posting index token id :
  NoDup (Dict.keys index) -> NoDup (Dict.keys (append_posting index token id)).
Proof.
  intros Hnd. unfold append_posting.
  destruct (Dict.get index token); now apply DictFacts.nodup_keys_set.
Qed.

Lemma nodup_keys_index_of_documents documents :
  NoDup (Dict.keys (index_of_documents cut stopwords documents)).
Proof.
  unfold index_of_documents.
  apply (fold_left_preserves (fun index => NoDup (Dict.keys index))).
  - intros index doc Hnd. unfold index_document.
    apply (fold_left_preserves (fun index => NoDup (Dict.keys index))); auto.
    intros. now apply nodup_keys_append_posting.
  - constructor.
Qed.

Lemma preprocess_in t text :
  In t (preprocess text) ->
  In t (cut text) /\ Str.strip_nonempty t = true /\ ~ In t stopwords.
Proof.
  unfold preprocess. intros Hin. apply filter_In in Hin.
  destruct Hin as [Hcut Hkeep]. apply andb_true_iff in Hkeep.
  destruct Hkeep as [Hstrip Hstop]. repeat split; auto.
  intros Hin. apply str_mem_in in Hin. rewrite Hin in Hstop. discriminate.
Qed.

(** X3. In the index that [build_inverted_index] returns the keys are
    pairwise distinct, and a string is a key exactly when it is a token of
    the content of some stored document; so every key has a character that
    is not white space and is not a stop word. *)
Theorem index_keys_are_stored_tokens data index documents :
  build_inverted_index data = (index, documents) ->
  NoDup (Dict.keys index)
  /\ (forall t, Dict.mem index t = true
                <-> exists id content,
                      In (id, content) documents /\ In t (preprocess content))
  /\ (forall t, Dict.mem index t = true ->
                Str.strip_nonempty t = true /\ ~ In t stopwords).
Proof.
  intros H. destruct (built_facts _ _ _ _ _ H) as (Hidx & _ & _).
  assert (Hkey : forall t, Dict.mem index t = true
                <-> exists id content,
                      In (id, content) documents /\ In t (preprocess content)).
  { intros t. unfold Dict.mem. rewrite Hidx, get_index_of_documents. split.
    - intros Hmem.
      destruct (documents_with cut stopwords t documents) as [|id l] eqn:E;
        [discriminate|].
      assert (Hin : In id (documents_with cut stopwords t documents))
        by (rewrite E; now left).
      apply documents_with_in in Hin. destruct Hin as [content Hc].
      now exists id, content.
    - intros [id [content [Hin Ht]]].
      assert (Hid : In id (documents_with cut stopwords t documents)).
      { unfold documents_with. apply in_map_iff. exists (id, content).
        split; auto. apply filter_In. split; auto. now apply str_mem_in. }
      destruct (documents_with cut stopwords t documents); [destruct Hid|reflexivity]. }
  split; [|split].
  - rewrite Hidx. apply nodup_keys_index_of_documents.
  - exact Hkey.
  - intros t Ht. apply Hkey in Ht. destruct Ht as [id [content [_ Ht]]].
    apply preprocess_in in Ht. tauto.
Qed.

(** X4. On a corpus whose stock codes are pairwise distinct, whose dates
    are pairwise distinct under each stock, and none of which has a "-", the
    ids of the document list that [build_inverted_index] returns are
    pairwise distinct. *)
Theorem dash_free_corpus_has_distinct_ids data index documents :
  distinct_keys data -> dash_free_keys data ->
  build_inverted_index data = (index, documents) ->
  NoDup (map fst documents).
Proof.
  intros Hkeys Hfree Hbuild.
  pose proof (build_stocks_ids cut stopwords data build_init) as Hids.
  unfold build_inverted_index in Hbuild. inversion Hbuild; subst.
  apply Hids. simpl. now apply corpus_ids_distinct.
Qed.

End BuilderIndex.

(** * Further properties of the query engine *)

Lemma first_content_in (documents : document_list) id content :
  In (id, content) documents -> first_content documents id <> None.
Proof.
  induction documents as [|[id' c'] documents IH]; simpl; [tauto|].
  intros [Heq|Hin].
  - inversion Heq; subst. rewrite String.eqb_refl. discriminate.
  - destruct (String.eqb id' id); [discriminate|auto].
Qed.

Section SearchErrors.

Variable cut : string -> list string.
Variable stopwords : list string.

Notation preprocess := (preprocess cut stopwords).
Notation search := (search cut stopwords).
Notation build_inverted_index := (build_inverted_index cut stopwords).

Lemma forallb_false_exists {A : Type} (p : A -> bool) l :
  forallb p l = false -> exists x, In x l /\ p x = false.
Proof.
  induction l as [|x l IH]; simpl; [discriminate|].
  intros H. apply andb_false_iff in H. destruct H as [H|H].
  - exists x. auto.
  - destruct (IH H) as [y [Hy Hp]]. exists y. auto.
Qed.

Lemma for_each_raise_inv {A S : Type} (body : S -> A -> result S) e l : forall s,
  Res.for_each l body s = Raise e ->
  exists s' x, In x l /\ body s' x = Raise e.
Proof.
  induction l as [|x l IH]; intros s H; simpl in H; [discriminate|].
  destruct (body s x) as [s1|e1] eqn:E.
  - destruct (IH _ H) as [s' [y [Hy Hb]]]. exists s', y. split; auto. now right.
  - inversion H; subst. exists s, x. split; auto. now left.
Qed.

Lemma posting_result_undefined documents token idf id ds :
  posting_defined cut stopwords documents id = false ->
  exists e, posting_result cut stopwords documents token idf ds id = Raise e.
Proof.
  unfold posting_defined, posting_result.
  destruct (first_content documents id) as [content|]; [|now exists StopIteration].
  intros H. apply negb_false_iff, Nat.eqb_eq in H. rewrite H.
  now exists ZeroDivisionError.
Qed.

Lemma math_log_zero d : math_log (INR 0 / INR d) = Raise ValueError.
Proof.
  unfold math_log. simpl INR.
  destruct (Rle_dec (0 / INR d) 0) as [|Hn]; auto.
  exfalso. apply Hn. unfold Rdiv. rewrite Rmult_0_l. lra.
Qed.

Lemma token_result_undefined index documents token ds :
  token_defined cut stopwords index documents token = false ->
  exists e, token_result cut stopwords index documents ds token = Raise e.
Proof.
  unfold token_defined, token_result.
  destruct (Dict.get index token) as [postings|]; [|discriminate].
  intros H.
  destruct (length postings) as [|df] eqn:Hdf; [now exists ZeroDivisionError|].
  destruct (length documents) as [|n] eqn:Hn.
  - exists ValueError. cbn [true_div]. now rewrite math_log_zero.
  - simpl in H.
    rewrite true_div_pos, math_log_ratio by discriminate.
    apply for_each_raises.
    apply forallb_false_exists in H. destruct H as [id [Hin Hid]].
    exists id. split; auto. intros ds'.
    now apply posting_result_undefined.
Qed.

Lemma search_undefined_raises query index documents :
  search_defined cut stopwords query index documents = false ->
  exists e, snd (search query index documents) = Raise e.
Proof.
  intros E. rewrite search_eq. simpl.
  unfold search_result, scores_result. unfold search_defined in E.
  apply forallb_false_exists in E. destruct E as [t [Hin Ht]].
  destruct (for_each_raises (token_result cut stopwords index documents)
              (preprocess query)) with (s := @nil (string * R)) as [e He].
  - exists t. split; auto. intros ds. now apply token_result_undefined.
  - exists e. now rewrite He.
Qed.

Lemma search_returns_defined query index documents results :
  snd (search query index documents) = Ok results ->
  search_defined cut stopwords query index documents = true.
Proof.
  intros Hres.
  destruct (search_defined cut stopwords query index documents) eqn:E; auto.
  destruct (search_undefined_raises _ _ _ E) as [e He]. congruence.
Qed.

(** X5. For every index, document list and query, [search] returns a list
    exactly when each query token that is a key of the index has a
    non-empty postings list, the document list is not empty, and every id
    of the postings list is the id of an entry whose content, the first
    under that id, has at least one token; in every other case it raises. *)
Theorem search_returns_iff_defined query index documents :
  (exists results, snd (search query index documents) = Ok results)
  <-> search_defined cut stopwords query index documents = true.
Proof.
  split.
  - intros [results Hres]. now apply search_returns_defined in Hres.
  - intros H. eexists. now apply search_defined_result.
Qed.

(** The ids of the result are the ids of the postings lists of the query
    tokens, each once. *)
Lemma search_result_ids query index documents results :
  snd (search query index documents) = Ok results ->
  NoDup (map fst results)
  /\ forall id, In id (map fst results)
                <-> In id (flat_map (postings_of index) (preprocess query)).
Proof.
  intros Hres. rewrite search_eq in Hres. simpl in Hres.
  unfold search_result in Hres.
  destruct (scores_result cut stopwords query index documents) as [ds|] eqn:E;
    [|discriminate].
  pose proof (nodup_keys_scores_result _ _ _ _ _ _ E) as Hnd.
  rewrite (read_back_sorted ds Hnd) in Hres. inversion Hres; subst results.
  assert (Hperm : Permutation (Dict.keys ds) (map fst (sorted_desc ds)))
    by (apply Permutation_map, sorted_desc_perm).
  split.
  - now apply (Permutation_NoDup Hperm).
  - intros id. apply scores_result_ok in E. split; intros Hin.
    + apply (Permutation_in _ (Permutation_sym Hperm)) in Hin.
      rewrite E in Hin. apply keys_add_all_in in Hin.
      rewrite map_fst_contributions in Hin. destruct Hin as [[]|Hin]. exact Hin.
    + apply (Permutation_in _ Hperm). rewrite E. apply keys_add_all_in.
      right. now rewrite map_fst_contributions.
Qed.

(** X6. On the index and the document list that [build_inverted_index]
    returns, the only exception that [search] can raise is a
    [ZeroDivisionError]: a key has at least one posting and at most as many
    as there are documents, and every posting is the id of an entry. *)
Theorem built_search_raises_only_zero_division data query index documents e :
  build_inverted_index data = (index, documents) ->
  snd (search query index documents) = Raise e ->
  e = ZeroDivisionError.
Proof.
  intros Hbuild Hraise. rewrite search_eq in Hraise. simpl in Hraise.
  unfold search_result in Hraise.
  destruct (scores_result cut stopwords query index documents) as [ds|e'] eqn:E;
    [discriminate|].
  inversion Hraise; subst e'; clear Hraise.
  apply for_each_raise_inv in E. destruct E as [ds [t [_ Ht]]].
  unfold token_result in Ht.
  destruct (Dict.get index t) as [postings|] eqn:Hget; [|discriminate].
  destruct (built_postings_length _ _ _ _ _ _ _ Hbuild Hget) as [Hdf Hn].
  rewrite true_div_pos, math_log_ratio in Ht by lia.
  apply for_each_raise_inv in Ht. destruct Ht as [ds' [id [Hin Hid]]].
  unfold posting_result in Hid.
  destruct (built_facts _ _ _ _ _ Hbuild) as (Hidx & _ & _).
  assert (Hp : postings_of index t = postings)
    by (unfold postings_of; now rewrite Hget).
  rewrite <- Hp, Hidx, postings_of_index_of_documents in Hin.
  apply documents_with_in in Hin. destruct Hin as [content [Hin _]].
  apply first_content_in in Hin.
  destruct (first_content documents id) as [c|]; [|congruence].
  destruct (length (preprocess c)); simpl in Hid; congruence.
Qed.

(** X7. When [search] returns on the index and the document list that
    [build_inverted_index] gave, no id occurs twice in the result, and an
    id is in the result exactly when it is the id of a stored entry whose
    content shares a token with the query. *)
Theorem search_returns_documents_sharing_a_token data query index documents results :
  build_inverted_index data = (index, documents) ->
  snd (search query index documents) = Ok results ->
  NoDup (map fst results)
  /\ forall id, In id (map fst results)
                <-> exists content t,
                      In (id, content) documents
                      /\ In t (preprocess query)
                      /\ In t (preprocess content).
Proof.
  intros Hbuild Hres.
  destruct (search_result_ids _ _ _ _ Hres) as [Hnd Hids].
  split; auto. intros id.
  destruct (built_facts _ _ _ _ _ Hbuild) as (Hidx & _ & _).
  rewrite Hids, in_flat_map. split.
  - intros [t [Ht Hin]].
    rewrite Hidx, postings_of_index_of_documents in Hin.
    apply documents_with_in in Hin. destruct Hin as [content [Hin Hc]].
    now exists content, t.
  - intros [content [t (Hin & Ht & Hc)]]. exists t. split; auto.
    rewrite Hidx, postings_of_index_of_documents.
    unfold documents_with. apply in_map_iff. exists (id, content).
    split; auto. apply filter_In. split; auto. now apply str_mem_in.
Qed.

End SearchErrors.

Section SingleToken.

Variable cut : string -> list string.
Variable stopwords : list string.

Notation preprocess := (preprocess cut stopwords).
Notation search := (search cut stopwords).
Notation build_inverted_index := (build_inverted_index cut stopwords).

Lemma Rinv_INR_nonneg d : (0 <= / INR d)%R.
Proof.
  destruct d as [|d].
  - simpl. rewrite Rinv_0. lra.
  - left. apply Rinv_0_lt_compat, lt_0_INR. lia.
Qed.

(** The score of a returned id under a query of one token, when the ids
    are pairwise distinct. *)
Lemma single_token_score data query t index documents results id s :
  build_inverted_index data = (index, documents) ->
  NoDup (map fst documents) ->
  preprocess query = [t] ->
  snd (search query index documents) = Ok results ->
  In (id, s) results ->
  s = (term_frequency cut stopwords t (content_of documents id)
       * inverse_document_frequency index documents t)%R
  /\ Dict.mem index t = true.
Proof.
  intros Hbuild Hnd Hq Hres Hin.
  destruct (search_result_ids _ _ _ _ _ _ Hres) as [_ Hids].
  assert (Hid : In id (postings_of index t)).
  { apply (in_map fst) in Hin. apply Hids in Hin.
    rewrite Hq in Hin. simpl in Hin. now rewrite app_nil_r in Hin. }
  assert (Hmem : Dict.mem index t = true).
  { unfold Dict.mem. unfold postings_of in Hid.
    destruct (Dict.get index t); [reflexivity|destruct Hid]. }
  split; auto.
  rewrite (search_scores _ _ _ _ _ _ _ _ Hres Hin).
  unfold tfidf_score, matching_tokens. rewrite Hq. simpl. rewrite Hmem. simpl.
  rewrite (token_contribution_distinct_ids _ _ _ _ _ _ _ Hbuild Hnd).
  apply str_mem_in in Hid. rewrite Hid. ring.
Qed.

(** X8. On a built index with pairwise distinct ids and under a query of
    one token, of two returned documents with the same number of tokens the
    one in whose content the token occurs more often, as a substring, has
    a score that is not lower. *)
Theorem single_token_score_monotone data query t index documents results
        id1 s1 id2 s2 :
  build_inverted_index data = (index, documents) ->
  NoDup (map fst documents) ->
  preprocess query = [t] ->
  snd (search query index documents) = Ok results ->
  In (id1, s1) results -> In (id2, s2) results ->
  length (preprocess (content_of documents id1))
  = length (preprocess (content_of documents id2)) ->
  Str.count (content_of documents id1) t <= Str.count (content_of documents id2) t ->
  (s1 <= s2)%R.
Proof.
  intros Hbuild Hnd Hq Hres H1 H2 Hlen Hcount.
  destruct (single_token_score _ _ _ _ _ _ _ _ Hbuild Hnd Hq Hres H1) as [-> Hmem].
  destruct (single_token_score _ _ _ _ _ _ _ _ Hbuild Hnd Hq Hres H2) as [-> _].
  apply Rmult_le_compat_r.
  - unfold inverse_document_frequency, postings_of, Dict.mem in *.
    destruct (Dict.get index t) as [postings|] eqn:Hget; [|discriminate].
    apply ln_ratio_nonneg. eapply built_postings_length; eauto.
  - unfold term_frequency. rewrite Hlen. unfold Rdiv.
    apply Rmult_le_compat_r; [apply Rinv_INR_nonneg|].
    now apply le_INR.
Qed.

Lemma set_absent {V : Type} (d : Dict.t V) k v :
  Dict.get d k = None -> Dict.set d k v = d ++ [(k, v)].
Proof.
  induction d as [|[k' v'] d IH]; simpl; auto.
  destruct (String.eqb k' k); [discriminate|].
  intros H. now rewrite IH.
Qed.

Lemma add_all_distinct l : forall ds : score_table,
  NoDup (Dict.keys ds ++ map fst l) ->
  add_all ds l = ds ++ map (fun item => (fst item, (0 + snd item)%R)) l.
Proof.
  induction l as [|[k x] l IH]; intros ds Hnd; simpl.
  - now rewrite app_nil_r.
  - change (fold_left _ l ?d) with (add_all d l).
    assert (Hk : Dict.get ds k = None).
    { apply DictFacts.get_none_keys. intros Hin.
      apply NoDup_remove_2 in Hnd. apply Hnd. apply in_app_iff. now left. }
    unfold score_add, score_get. rewrite Hk, (set_absent _ _ _ Hk).
    rewrite IH.
    + now rewrite <- app_assoc.
    + unfold Dict.keys in *. now rewrite map_app, <- app_assoc.
Qed.

Lemma sorted_desc_constant v (l : list (string * R)) :
  (forall x, In x l -> snd x = v) -> sorted_desc l = l.
Proof.
  induction l as [|x l IH]; intros H; simpl; auto.
  rewrite IH by (intros y Hy; apply H; now right).
  destruct l as [|y l]; simpl; auto.
  rewrite (H x), (H y) by (simpl; auto).
  assert (Rltb v v = false) as -> by (apply Rltb_false; lra).
  reflexivity.
Qed.

(** X9. On a built index with pairwise distinct ids, a query of one token
    that is a token of every stored document returns every stored document,
    in the order of the document list, each with the score 0: idf =
    ln (N / N) = 0. *)
Theorem token_of_every_document_scores_zero data query t index documents :
  build_inverted_index data = (index, documents) ->
  NoDup (map fst documents) ->
  preprocess query = [t] ->
  (forall id content, In (id, content) documents -> In t (preprocess content)) ->
  snd (search query index documents)
  = Ok (map (fun doc : string * string => (fst doc, 0%R)) documents).
Proof.
  intros Hbuild Hnd Hq Hall.
  destruct (built_facts _ _ _ _ _ Hbuild) as (Hidx & _ & _).
  assert (Hpost : postings_of index t = map fst documents).
  { rewrite Hidx, postings_of_index_of_documents. unfold documents_with.
    f_equal. apply filter_all_true. intros [id content] Hin.
    apply str_mem_in. simpl. eapply Hall; eauto. }
  destruct (search_returns_on_distinct_ids _ _ _ _ _ query Hbuild Hnd)
    as [_ [results Hres]].
  apply search_returns_defined in Hres.
  rewrite (search_defined_result _ _ _ _ _ Hres).
  assert (Hcontrib : contributions cut stopwords query index documents
                     = map (fun id => (id, 0%R)) (map fst documents)).
  { unfold contributions. rewrite Hq. simpl. rewrite app_nil_r.
    unfold contributions_of. rewrite Hpost.
    apply map_ext_in. intros id Hin. f_equal.
    unfold inverse_document_frequency. rewrite Hpost, length_map.
    rewrite ln_ratio_same; [ring|].
    destruct documents; [destruct Hin|discriminate]. }
  rewrite Hcontrib, add_all_distinct.
  - simpl. rewrite !map_map. simpl.
    rewrite (sorted_desc_constant (0 + 0)%R).
    + f_equal. apply map_ext. intros doc. f_equal. ring.
    + intros x Hx. apply in_map_iff in Hx. now destruct Hx as [doc [<- _]].
  - simpl. rewrite map_map. simpl. now rewrite map_id.
Qed.

End SingleToken.

(** * String methods *)

Section StringFacts.

Lemma startswith_length p : forall s,
  Str.startswith p s = true -> String.length p <= String.length s.
Proof.
  induction p as [|a p IH]; intros [|b s] H; simpl in *;
    try lia; try discriminate.
  apply andb_true_iff in H. destruct H as [_ H]. apply IH in H. lia.
Qed.

Lemma count_scan_bound sub s : forall skip,
  sub <> EmptyString ->
  skip <= String.length s ->
  Str.count_scan sub s skip * String.length sub + skip <= String.length s.
Proof.
  induction s as [|c s IH]; intros skip Hsub Hskip; simpl in *.
  - lia.
  - destruct skip as [|k].
    + destruct (Str.startswith sub (String c s)) eqn:E.
      * apply startswith_length in E. simpl in E.
        assert (Hlen : String.length sub <> 0) by (destruct sub; simpl; congruence).
        specialize (IH (String.length sub - 1) Hsub). simpl. lia.
      * specialize (IH 0 Hsub). lia.
    + specialize (IH k Hsub). lia.
Qed.

(** X10. The occurrences that [count] finds do not overlap: for a
    non-empty token, the count times the length of the token is at most the
    length of the content; so the numerator of tf is at most
    len(content) / len(token). *)
Theorem count_times_length_bounded content token :
  token <> EmptyString ->
  Str.count content token * String.length token <= String.length content.
Proof.
  intros Hne. destruct token as [|c token]; [congruence|].
  unfold Str.count.
  pose proof (count_scan_bound (String c token) content 0 Hne). lia.
Qed.

Lemma length_append (a b : string) :
  String.length (a ++ b) = String.length a + String.length b.
Proof. induction a as [|c a IH]; simpl; auto. Qed.

Lemma replace_scan_length old new s : forall skip,
  old <> EmptyString ->
  skip <= String.length s ->
  String.length (Text.replace_scan old new s skip)
  + Str.count_scan old s skip * String.length old + skip
  = String.length s + Str.count_scan old s skip * String.length new.
Proof.
  induction s as [|c s IH]; intros skip Hold Hskip; simpl in *.
  - lia.
  - destruct skip as [|k].
    + destruct (Str.startswith old (String c s)) eqn:E.
      * apply startswith_length in E. simpl in E.
        assert (Hlen : String.length old <> 0) by (destruct old; simpl; congruence).
        specialize (IH (String.length old - 1) Hold).
        rewrite length_append. simpl. lia.
      * specialize (IH 0 Hold). simpl. lia.
    + specialize (IH k Hold). lia.
Qed.

Lemma after_each_length new s :
  String.length (Text.after_each new s)
  = String.length s + String.length s * String.length new.
Proof.
  induction s as [|c s IH]; simpl; auto.
  rewrite length_append, IH. lia.
Qed.

(** The lengths before and after [replace], for every [old]. *)
Lemma replace_length s old new :
  String.length (Text.replace s old new) + Str.count s old * String.length old
  = String.length s + Str.count s old * String.length new.
Proof.
  destruct old as [|c old].
  - unfold Text.replace, Str.count. rewrite length_append, after_each_length.
    simpl. lia.
  - unfold Text.replace, Str.count.
    pose proof (replace_scan_length (String c old) new s 0) as H.
    rewrite Nat.add_0_r in H. apply H; [congruence|lia].
Qed.

(** X11. Highlighting one token wraps each occurrence that [count] finds,
    and nothing else: the highlighted content is longer than the content by
    the nine characters of the two escape sequences for every occurrence
    counted in the numerator of tf. *)
Theorem highlight_wraps_counted_occurrences content token :
  String.length (highlight content [token])
  = String.length content + 9 * Str.count content token.
Proof.
  unfold highlight. simpl.
  pose proof (replace_length content token (red_on ++ token ++ red_off)) as H.
  rewrite !length_append in H. unfold red_on, red_off in H. simpl in H.
  unfold red_on, red_off. lia.
Qed.

(** *** [strip] *)

Lemma rstrip_empty s :
  Text.rstrip s = EmptyString <-> Str.strip_nonempty s = false.
Proof.
  induction s as [|c s IH]; simpl.
  - tauto.
  - destruct (Text.rstrip s) as [|d r].
    + destruct IH as [IH _]. rewrite (IH eq_refl), orb_false_r.
      destruct (Str.is_space c); simpl; split; auto; discriminate.
    + destruct (Str.strip_nonempty s).
      * rewrite orb_true_r. split; discriminate.
      * destruct IH as [_ IH]. discriminate (IH eq_refl).
Qed.

Lemma strip_nonempty_rstrip s :
  Str.strip_nonempty (Text.rstrip s) = Str.strip_nonempty s.
Proof.
  induction s as [|c s IH]; simpl; auto.
  destruct (Text.rstrip s) as [|d r] eqn:E.
  - apply rstrip_empty in E. rewrite E, orb_false_r.
    destruct (Str.is_space c) eqn:Ec; auto.
    cbn [Str.strip_nonempty]. now rewrite Ec.
  - cbn [Str.strip_nonempty] in *. now rewrite IH.
Qed.

Lemma truthy_lstrip s : Text.truthy (Text.lstrip s) = Str.strip_nonempty s.
Proof.
  induction s as [|c s IH]; simpl; auto.
  destruct (Str.is_space c); simpl; auto.
Qed.

(** [token.strip()] is true exactly when the token has a character that
    is not white space. *)
Lemma truthy_strip s : Text.truthy (Text.strip s) = Str.strip_nonempty s.
Proof. unfold Text.strip. now rewrite truthy_lstrip, strip_nonempty_rstrip. Qed.

Lemma lstrip_idem s : Text.lstrip (Text.lstrip s) = Text.lstrip s.
Proof.
  induction s as [|c s IH]; simpl; auto.
  destruct (Str.is_space c) eqn:E; auto. simpl. now rewrite E.
Qed.

Lemma rstrip_cons c s :
  Text.rstrip (String c s)
  = match Text.rstrip s with
    | EmptyString => if Str.is_space c then EmptyString else String c EmptyString
    | String d r => String c (String d r)
    end.
Proof. reflexivity. Qed.

Lemma rstrip_idem s : Text.rstrip (Text.rstrip s) = Text.rstrip s.
Proof.
  induction s as [|c s IH]; auto.
  rewrite rstrip_cons. destruct (Text.rstrip s) as [|d r] eqn:E.
  - destruct (Str.is_space c) eqn:Ec; auto.
    rewrite rstrip_cons. simpl. now rewrite Ec.
  - rewrite rstrip_cons, IH. reflexivity.
Qed.

Lemma rstrip_lstrip s : Text.rstrip (Text.lstrip s) = Text.lstrip (Text.rstrip s).
Proof.
  induction s as [|c s IH]; auto.
  rewrite rstrip_cons. cbn [Text.lstrip].
  destruct (Str.is_space c) eqn:Ec.
  - rewrite IH. destruct (Text.rstrip s) as [|d r]; auto.
    cbn [Text.lstrip]. now rewrite Ec.
  - rewrite rstrip_cons.
    destruct (Text.rstrip s) as [|d r]; cbn [Text.lstrip]; now rewrite Ec.
Qed.

Lemma strip_idem s : Text.strip (Text.strip s) = Text.strip s.
Proof.
  unfold Text.strip.
  now rewrite rstrip_lstrip, rstrip_idem, lstrip_idem.
Qed.

End StringFacts.

(** * Loading *)

Section LoadText.

Lemma truthy_true s : Text.truthy s = true <-> s <> EmptyString.
Proof. destruct s; simpl; split; congruence. Qed.

Lemma in_load_text file w :
  In w (load_text file)
  <-> exists line, In line file /\ Text.strip line = w /\ w <> EmptyString.
Proof.
  unfold load_text. rewrite in_map_iff. split.
  - intros [line [Hw Hin]]. apply filter_In in Hin. destruct Hin as [Hin Ht].
    exists line. repeat split; auto. subst w. now apply truthy_true.
  - intros [line (Hin & Hw & Hne)]. exists line. split; auto.
    apply filter_In. split; auto. rewrite Hw. now apply truthy_true.
Qed.

(** X12. No line that [load_text] returns is empty or begins or ends with
    white space (stripping it again changes nothing), and loading what was
    loaded gives the same list. *)
Theorem load_text_lines_are_stripped file :
  Forall (fun w => w <> EmptyString /\ Text.strip w = w) (load_text file)
  /\ load_text (load_text file) = load_text file.
Proof.
  assert (Hall : Forall (fun w => w <> EmptyString /\ Text.strip w = w)
                        (load_text file)).
  { apply Forall_forall. intros w Hw. apply in_load_text in Hw.
    destruct Hw as [line (_ & <- & Hne)]. split; auto. apply strip_idem. }
  split; auto.
  rewrite Forall_forall in Hall. unfold load_text at 1.
  rewrite filter_all_true.
  - rewrite <- (map_id (load_text file)) at 2.
    apply map_ext_in. intros w Hw. now apply Hall.
  - intros w Hw. destruct (Hall w Hw) as [Hne ->]. now apply truthy_true.
Qed.

Variable cut : string -> list string.

(** X13. With the stop words read by [load_text], as [preprocess] reads
    them, a piece that the segmenter cut is kept exactly when stripping
    it does not give the empty string and it is not the stripped form of
    a line of the stop-word file. *)
Theorem preprocess_drops_blank_and_listed_tokens file text t :
  In t (preprocess cut (load_text file) text)
  <-> In t (cut text)
      /\ Text.strip t <> EmptyString
      /\ ~ exists line, In line file /\ Text.strip line = t.
Proof.
  unfold preprocess. rewrite filter_In, andb_true_iff, negb_true_iff.
  rewrite <- truthy_strip, truthy_true. split.
  - intros (Hcut & Hstrip & Hstop). repeat split; auto.
    intros [line [Hin Hline]].
    assert (Hw : In t (load_text file)).
    { apply in_load_text. exists line. repeat split; auto.
      intros ->. now apply Hstrip. }
    apply str_mem_in in Hw. congruence.
  - intros (Hcut & Hstrip & Hstop). repeat split; auto.
    destruct (Str.mem t (load_text file)) eqn:E; auto.
    exfalso. apply Hstop. apply str_mem_in, in_load_text in E.
    destruct E as [line (Hin & Hline & _)]. now exists line.
Qed.

End LoadText.

Section LoadDirectory.

Variable load_json : string -> option json_value.

Notation load_file := (load_file load_json).
Notation load_all_data_from_dir := (load_all_data_from_dir load_json).

Lemma load_file_none directory listing :
  fold_left (load_file directory) listing None = None.
Proof. induction listing as [|f listing IH]; simpl; auto. Qed.

Lemma first_piece_has_no_sep sep s :
  Text.occurrences sep (hd EmptyString (Text.split sep s)) = 0.
Proof.
  induction s as [|c s IH]; simpl; auto.
  destruct (Ascii.eqb c sep) eqn:E; simpl; auto.
  destruct (Text.split sep s) as [|piece pieces]; simpl in *; rewrite E; auto.
Qed.

Lemma load_files_keys directory listing : forall combined0 combined,
  fold_left (load_file directory) listing (Some combined0) = Some combined ->
  NoDup (Dict.keys combined0) ->
  NoDup (Dict.keys combined)
  /\ forall k, In k (Dict.keys combined)
               <-> In k (Dict.keys combined0)
                   \/ exists f, In f listing /\ is_json_of k f = true.
Proof.
  induction listing as [|f listing IH]; intros c0 c H Hnd; simpl in H.
  - inversion H; subst. split; auto. intros k. split; auto.
    intros [Hin|[f [[] _]]]. exact Hin.
  - destruct (Text.endswith ".json" f) eqn:Ejson.
    + destruct (load_json (Text.path_join directory f)) as [data|];
        [|now rewrite load_file_none in H].
      apply IH in H; [|now apply DictFacts.nodup_keys_set].
      destruct H as [Hnd' Hkeys]. split; auto. intros k.
      rewrite Hkeys, DictFacts.keys_set. unfold is_json_of.
      destruct (Dict.mem c0 (hd EmptyString (Text.split "." f))) eqn:Em.
      * apply DictFacts.mem_keys in Em. split.
        -- intros [Hin|[g [Hg Hk]]]; auto. right. exists g. simpl. auto.
        -- intros [Hin|[g [[<-|Hg] Hk]]]; auto.
           ++ rewrite Ejson in Hk. simpl in Hk. apply String.eqb_eq in Hk.
              subst k. now left.
           ++ right. now exists g.
      * rewrite in_app_iff. simpl. split.
        -- intros [[Hin|[<-|[]]]|[g [Hg Hk]]]; auto.
           ++ right. exists f. split; auto.
              now rewrite Ejson, String.eqb_refl.
           ++ right. exists g. auto.
        -- intros [Hin|[g [[<-|Hg] Hk]]]; auto.
           ++ rewrite Ejson in Hk. simpl in Hk. apply String.eqb_eq in Hk.
              subst k. auto.
           ++ right. now exists g.
    + apply IH in H; auto. destruct H as [Hnd' Hkeys]. split; auto.
      intros k. rewrite Hkeys. unfold is_json_of. split.
      * intros [Hin|[g [Hg Hk]]]; auto. right. exists g. simpl. auto.
      * intros [Hin|[g [[<-|Hg] Hk]]]; auto.
        -- rewrite Ejson in Hk. discriminate.
        -- right. now exists g.
Qed.

(** X14. When [load_all_data_from_dir] returns, the stock codes of the
    result are pairwise distinct, none has a ".", and a string is a stock
    code exactly when it is the part before the first "." of a listed file
    name that ends in ".json"; the other files are not read. *)
Theorem loaded_stock_codes_are_json_stems listing directory combined :
  load_all_data_from_dir listing directory = Some combined ->
  NoDup (Dict.keys combined)
  /\ (forall k, In k (Dict.keys combined)
                <-> exists f, In f listing /\ is_json_of k f = true)
  /\ (forall k, In k (Dict.keys combined) -> Text.occurrences "." k = 0).
Proof.
  unfold load_all_data_from_dir. intros H.
  apply load_files_keys in H; [|constructor].
  destruct H as [Hnd Hkeys].
  assert (Hk : forall k, In k (Dict.keys combined)
                <-> exists f, In f listing /\ is_json_of k f = true).
  { intros k. rewrite Hkeys. simpl. tauto. }
  split; [|split]; auto.
  intros k Hin. apply Hk in Hin. destruct Hin as [f [_ Hf]].
  unfold is_json_of in Hf. apply andb_true_iff in Hf. destruct Hf as [_ Hf].
  apply String.eqb_eq in Hf. subst k. apply first_piece_has_no_sep.
Qed.

End LoadDirectory.

Section LoadDirectoryValues.

Variable load_json : string -> option json_value.

Notation load_file := (load_file load_json).
Notation load_all_data_from_dir := (load_all_data_from_dir load_json).

Lemma find_last_cons {A : Type} (p : A -> bool) x l :
  find_last p (x :: l)
  = match find_last p l with
    | Some y => Some y
    | None => if p x then Some x else None
    end.
Proof.
  unfold find_last. simpl.
  induction (rev l) as [|y r IH]; simpl; auto.
  destruct (p y); auto.
Qed.

Lemma load_files_values directory k listing : forall combined0 combined,
  fold_left (load_file directory) listing (Some combined0) = Some combined ->
  Dict.get combined k
  = match find_last (is_json_of k) listing with
    | Some f => load_json (Text.path_join directory f)
    | None => Dict.get combined0 k
    end.
Proof.
  induction listing as [|f listing IH]; intros c0 c H; simpl in H.
  - now inversion H.
  - rewrite find_last_cons. unfold is_json_of at 2.
    destruct (Text.endswith ".json" f) eqn:Ejson.
    + destruct (load_json (Text.path_join directory f)) as [data|] eqn:Eload;
        [|now rewrite load_file_none in H].
      rewrite (IH _ _ H).
      destruct (find_last (is_json_of k) listing); auto.
      rewrite DictFacts.get_set. simpl.
      now destruct (String.eqb (hd EmptyString (Text.split "." f)) k).
    + rewrite (IH _ _ H). simpl.
      now destruct (find_last (is_json_of k) listing).
Qed.

(** X15. When [load_all_data_from_dir] returns, the value under a stock
    code is what [load_json] gave for the last listed file that is read
    under that code, at the path that joins the directory and the file name:
    of two files such as "a.json" and "a.b.json" only the later one is
    kept. *)
Theorem last_listed_file_wins listing directory combined k f :
  load_all_data_from_dir listing directory = Some combined ->
  find_last (is_json_of k) listing = Some f ->
  Dict.get combined k = load_json (Text.path_join directory f).
Proof.
  unfold load_all_data_from_dir. intros H Hlast.
  rewrite (load_files_values directory k _ _ _ H). now rewrite Hlast.
Qed.

Lemma load_files_fail directory listing : forall combined0,
  fold_left (load_file directory) listing (Some combined0) = None
  <-> exists f, In f listing
                /\ Text.endswith ".json" f = true
                /\ load_json (Text.path_join directory f) = None.
Proof.
  induction listing as [|f listing IH]; intros c0; simpl.
  - split; [discriminate|]. intros [f [[] _]].
  - destruct (Text.endswith ".json" f) eqn:Ejson.
    + destruct (load_json (Text.path_join directory f)) as [data|] eqn:Eload.
      * rewrite IH. split.
        -- intros [g (Hg & Hj & Hl)]. exists g. auto.
        -- intros [g ([<-|Hg] & Hj & Hl)]; [congruence|]. now exists g.
      * rewrite load_file_none. split; auto. intros _. exists f. auto.
    + rewrite IH. split.
      * intros [g (Hg & Hj & Hl)]. exists g. auto.
      * intros [g ([<-|Hg] & Hj & Hl)]; [congruence|]. now exists g.
Qed.

(** X16. With [os.listdir] a function that gives the names or raises,
    [load_all_data_from_dir] fails exactly when [os.listdir] raises on the
    directory or [load_json] fails on a listed file whose name ends in
    ".json"; a listed file with another ending cannot make it fail. *)
Theorem loading_fails_iff_listing_or_json_fails
        (listdir : string -> option (list string)) directory :
  load_all_data_from listdir load_json directory = None
  <-> listdir directory = None
      \/ exists listing f,
           listdir directory = Some listing
           /\ In f listing
           /\ Text.endswith ".json" f = true
           /\ load_json (Text.path_join directory f) = None.
Proof.
  unfold load_all_data_from, load_all_data_from_dir.
  destruct (listdir directory) as [listing|].
  - rewrite load_files_fail. split.
    + intros [f Hf]. right. now exists listing, f.
    + intros [H|[listing' [f (Heq & Hf)]]]; [discriminate|].
      inversion Heq; subst. now exists f.
  - split; auto.
Qed.

End LoadDirectoryValues.

(** * Presentation *)

Section IdParts.

Lemma no_dash_occurrences s : no_dash s = true <-> Text.occurrences "-" s = 0.
Proof.
  induction s as [|c s IH]; simpl.
  - tauto.
  - rewrite andb_true_iff, IH, negb_true_iff.
    destruct (Ascii.eqb c "-"); simpl; split.
    + intros [H _]. discriminate.
    + discriminate.
    + tauto.
    + tauto.
Qed.

Lemma occurrences_append c a b :
  Text.occurrences c (a ++ b) = Text.occurrences c a + Text.occurrences c b.
Proof. induction a as [|d a IH]; simpl; auto. rewrite IH. lia. Qed.

Lemma split_length sep s :
  length (Text.split sep s) = S (Text.occurrences sep s).
Proof.
  induction s as [|c s IH]; simpl; auto.
  destruct (Ascii.eqb c sep); simpl.
  - now rewrite IH.
  - destruct (Text.split sep s); simpl in *; lia.
Qed.

Lemma split_without_sep sep s :
  Text.occurrences sep s = 0 -> Text.split sep s = [s].
Proof.
  induction s as [|c s IH]; simpl; auto.
  destruct (Ascii.eqb c sep); simpl; [discriminate|].
  intros H. now rewrite (IH H).
Qed.

Lemma split_at_first_sep sep a b :
  Text.occurrences sep a = 0 ->
  Text.split sep (a ++ String sep b) = a :: Text.split sep b.
Proof.
  induction a as [|c a IH]; simpl.
  - now rewrite Ascii.eqb_refl.
  - destruct (Ascii.eqb c sep); simpl; [discriminate|].
    intros H. now rewrite (IH H).
Qed.

Lemma string_of_uint_no_dash d :
  Text.occurrences "-" (NilEmpty.string_of_uint d) = 0.
Proof. induction d; simpl; auto. Qed.

(** X17. Splitting an id at "-" gives back the stock code, the date and
    the position it was made of, when neither the stock code nor the date
    has a "-". *)
Theorem split_recovers_id_parts stock_code date doc_id :
  no_dash stock_code = true -> no_dash date = true ->
  Text.split "-" (make_doc_id stock_code date doc_id)
  = [stock_code; date; Str.of_nat doc_id].
Proof.
  intros Hs Hd. apply no_dash_occurrences in Hs, Hd. unfold make_doc_id.
  assert (Hsep : forall x, ("-" ++ x)%string = String "-" x) by reflexivity.
  rewrite !Hsep.
  rewrite (split_at_first_sep _ _ _ Hs), (split_at_first_sep _ _ _ Hd).
  now rewrite split_without_sep by apply string_of_uint_no_dash.
Qed.

(** X18. An id whose stock code or date has a "-" does not split into
    three parts: when such an id heads the results, [display_results]
    prints nothing and raises a [ValueError]. *)
Theorem display_raises_on_dash stock_code date doc_id score rest documents
        query_tokens :
  no_dash stock_code = false \/ no_dash date = false ->
  display_results ((make_doc_id stock_code date doc_id, score) :: rest)
                  documents query_tokens
  = ([], Some (Builtin ValueError)).
Proof.
  intros Hdash. unfold display_results. simpl. unfold display_line.
  assert (Hocc : Text.occurrences "-" (make_doc_id stock_code date doc_id) <> 2).
  { unfold make_doc_id.
    assert (Hsep : forall x, ("-" ++ x)%string = String "-" x) by reflexivity.
    rewrite !Hsep.
    rewrite occurrences_append. simpl. rewrite occurrences_append. simpl.
    unfold Str.of_nat. rewrite string_of_uint_no_dash.
    destruct Hdash as [H|H].
    - assert (Text.occurrences "-" stock_code <> 0); [|lia].
      intros H0. apply no_dash_occurrences in H0. congruence.
    - assert (Text.occurrences "-" date <> 0); [|lia].
      intros H0. apply no_dash_occurrences in H0. congruence. }
  destruct (Text.split "-" (make_doc_id stock_code date doc_id))
    as [|x [|y [|z [|w l]]]] eqn:E; auto.
  exfalso. apply Hocc.
  pose proof (split_length "-" (make_doc_id stock_code date doc_id)) as Hlen.
  rewrite E in Hlen. simpl in Hlen. lia.
Qed.

End IdParts.

Section Display.

Lemma doc_map_get_in documents id content : forall doc_map : Dict.t string,
  Dict.get (fold_left (fun doc_map doc => Dict.set doc_map (fst doc) (snd doc))
                      documents doc_map) id = Some content ->
  In (id, content) documents \/ Dict.get doc_map id = Some content.
Proof.
  induction documents as [|[id' c'] documents IH]; intros doc_map H; simpl in *.
  - now right.
  - apply IH in H. destruct H as [H|H]; auto.
    rewrite DictFacts.get_set in H. simpl in H.
    destruct (String.eqb_spec id' id) as [->|Hne]; auto.
    inversion H; subst. auto.
Qed.

Lemma doc_map_get_some documents id : forall doc_map : Dict.t string,
  In id (map fst documents) \/ Dict.get doc_map id <> None ->
  Dict.get (fold_left (fun doc_map doc => Dict.set doc_map (fst doc) (snd doc))
                      documents doc_map) id <> None.
Proof.
  induction documents as [|[id' c'] documents IH]; intros doc_map H; simpl in *.
  - tauto.
  - apply IH. rewrite DictFacts.get_set. simpl.
    destruct (String.eqb_spec id' id) as [->|Hne]; [right; discriminate|].
    destruct H as [[H|H]|H]; auto; congruence.
Qed.

Lemma display_from_length doc_map query_tokens items : forall idx,
  length (fst (display_from doc_map query_tokens idx items)) <= length items
  /\ (snd (display_from doc_map query_tokens idx items) = None ->
      length (fst (display_from doc_map query_tokens idx items)) = length items).
Proof.
  induction items as [|item items IH]; intros idx; simpl; auto.
  destruct (display_line doc_map query_tokens idx item) as [line|e]; simpl.
  - destruct (IH (S idx)) as [Hle Heq].
    destruct (display_from doc_map query_tokens (S idx) items) as [lines e].
    simpl in *. split; [lia|]. intros He. now rewrite Heq.
  - split; [lia|discriminate].
Qed.

Lemma display_line_inl doc_map query_tokens idx item line :
  display_line doc_map query_tokens idx item = inl line ->
  l_idx line = idx
  /\ l_score line = snd item
  /\ (exists doc_id,
        Text.split "-" (fst item) = [l_stock_code line; l_date line; doc_id])
  /\ exists content,
       Dict.get doc_map (fst item) = Some content
       /\ l_content line = highlight (Text.strip content) query_tokens.
Proof.
  destruct item as [id score]. unfold display_line. simpl.
  destruct (Text.split "-" id) as [|a [|b [|c [|d l]]]]; try discriminate.
  destruct (Dict.get doc_map id) as [content|]; [|discriminate].
  intros H. inversion H; subst; clear H. simpl.
  repeat split; eauto.
Qed.

Lemma display_from_nth doc_map query_tokens items : forall idx k line,
  nth_error (fst (display_from doc_map query_tokens idx items)) k = Some line ->
  exists item,
    nth_error items k = Some item
    /\ display_line doc_map query_tokens (idx + k) item = inl line.
Proof.
  induction items as [|item items IH]; intros idx k line H; simpl in H.
  - destruct k; discriminate.
  - destruct (display_line doc_map query_tokens idx item) as [l0|e] eqn:E.
    + destruct (display_from doc_map query_tokens (S idx) items) as [lines e] eqn:E'.
      simpl in H. destruct k as [|k]; simpl in H.
      * inversion H; subst. exists item. rewrite Nat.add_0_r. auto.
      * specialize (IH (S idx) k line). rewrite E' in IH. simpl in IH.
        destruct (IH H) as [it [Hit Hline]]. exists it. split; auto.
        now replace (idx + S k) with (S idx + k) by lia.
    + destruct k; discriminate.
Qed.

Lemma nth_error_firstn_some {A : Type} n (l : list A) : forall k x,
  nth_error (firstn n l) k = Some x -> nth_error l k = Some x.
Proof.
  revert l. induction n as [|n IH]; intros l k x H.
  - destruct k; discriminate.
  - destruct l as [|y l]; [destruct k; discriminate|].
    destruct k as [|k]; simpl in *; auto.
Qed.

(** X19. [display_results] prints at most twenty lines; when it raises
    nothing it prints one line for each of the first twenty results; and
    the line of rank k + 1, printed or not followed by an exception, shows
    the score of the result at position k and the content stored under its
    id, stripped and then highlighted for each query token in turn. *)
Theorem display_shows_first_twenty results documents query_tokens :
  let out := display_results results documents query_tokens in
  length (fst out) <= 20
  /\ (snd out = None -> length (fst out) = Nat.min 20 (length results))
  /\ forall k line,
       nth_error (fst out) k = Some line ->
       l_idx line = S k
       /\ exists id content,
            nth_error results k = Some (id, l_score line)
            /\ In (id, content) documents
            /\ l_content line = highlight (Text.strip content) query_tokens.
Proof.
  unfold display_results. cbv zeta.
  destruct (display_from_length (doc_map_of documents) query_tokens
              (firstn 20 results) 1) as [Hle Heq].
  rewrite length_firstn in Hle, Heq.
  split; [lia|]. split; [exact Heq|].
  intros k line Hk. apply display_from_nth in Hk.
  destruct Hk as [[id score] [Hnth Hline]].
  apply display_line_inl in Hline.
  destruct Hline as (Hidx & Hscore & _ & content & Hget & Hcontent).
  cbn [fst snd] in *. split; [exact Hidx|].
  exists id, content. repeat split; auto.
  - apply nth_error_firstn_some in Hnth. now rewrite Hscore.
  - unfold doc_map_of in Hget. apply doc_map_get_in in Hget.
    destruct Hget as [Hin|Hget]; [exact Hin|discriminate].
Qed.

Lemma display_from_no_exception doc_map query_tokens items : forall idx,
  (forall item, In item items ->
     (exists a b c, Text.split "-" (fst item) = [a; b; c])
     /\ Dict.get doc_map (fst item) <> None) ->
  snd (display_from doc_map query_tokens idx items) = None.
Proof.
  induction items as [|item items IH]; intros idx H; simpl; auto.
  destruct (H item (or_introl eq_refl)) as [[a [b [c Hsplit]]] Hget].
  destruct item as [id score]. unfold display_line. simpl in *.
  rewrite Hsplit. destruct (Dict.get doc_map id) as [content|]; [|congruence].
  specialize (IH (S idx)).
  destruct (display_from doc_map query_tokens (S idx) items) as [lines e].
  simpl in *. apply IH. intros it Hit. apply H. now right.
Qed.

End Display.

Section DisplayOfSearch.

Variable cut : string -> list string.
Variable stopwords : list string.

Notation build_inverted_index := (build_inverted_index cut stopwords).
Notation search := (search cut stopwords).

(** X20. On a corpus in which no stock code and no date has a "-",
    whatever [search] returns from the built index can be displayed:
    [display_results] raises nothing, every id splits into its three parts
    and is a key of the document map, and one line is printed for each of
    the first twenty results. *)
Theorem display_of_search_never_raises data query index documents results
        query_tokens :
  dash_free_keys data ->
  build_inverted_index data = (index, documents) ->
  snd (search query index documents) = Ok results ->
  snd (display_results results documents query_tokens) = None
  /\ length (fst (display_results results documents query_tokens))
     = Nat.min 20 (length results).
Proof.
  intros Hfree Hbuild Hres.
  assert (Hnone : snd (display_results results documents query_tokens) = None).
  { unfold display_results. apply display_from_no_exception.
    intros [id score] Hin. simpl.
    assert (Hin' : In (id, score) results).
    { rewrite <- (firstn_skipn 20 results). apply in_or_app. now left. }
    destruct (search_result_ids _ _ _ _ _ _ Hres) as [_ Hids].
    apply (in_map fst) in Hin'. apply Hids in Hin'.
    apply in_flat_map in Hin'. destruct Hin' as [t [_ Hpost]].
    destruct (built_facts _ _ _ _ _ Hbuild) as (Hidx & _ & _).
    rewrite Hidx, postings_of_index_of_documents in Hpost.
    apply documents_with_in in Hpost. destruct Hpost as [content [Hdoc _]].
    split.
    - pose proof (build_loop_stored_from cut stopwords data) as Hall.
      rewrite Forall_forall in Hall.
      unfold build_inverted_index in Hbuild. inversion Hbuild; subst.
      destruct (Hall _ Hdoc)
        as (stock_code & stock_data & date & news_list & n & Hs & Hd & _ & Hid).
      simpl in Hid. destruct (Hfree _ Hs) as [Hsc Hdates]. simpl in *.
      specialize (Hdates _ Hd). simpl in Hdates.
      exists stock_code, date, (Str.of_nat n).
      rewrite Hid. apply no_dash_occurrences in Hsc, Hdates.
      unfold make_doc_id.
      assert (Hsep : forall x, ("-" ++ x)%string = String "-" x) by reflexivity.
      rewrite !Hsep.
      rewrite (split_at_first_sep _ _ _ Hsc), (split_at_first_sep _ _ _ Hdates).
      now rewrite split_without_sep by apply string_of_uint_no_dash.
    - unfold doc_map_of. apply doc_map_get_some. left.
      now apply (in_map fst) in Hdoc. }
  split; auto.
  unfold display_results in *.
  destruct (display_from_length (doc_map_of documents) query_tokens
              (firstn 20 results) 1) as [_ Heq].
  rewrite (Heq Hnone). apply length_firstn.
Qed.

End DisplayOfSearch.

(** * Instances of the further properties *)

Lemma corpus_pair_distinct_keys : distinct_keys corpus_pair.
Proof.
  split.
  - repeat constructor. simpl. tauto.
  - intros stock [<-|[]]. repeat constructor. simpl. tauto.
Qed.

Lemma corpus_pair_dash_free : dash_free_keys corpus_pair.
Proof.
  intros stock [<-|[]]. split; [reflexivity|].
  intros date [<-|[]]. reflexivity.
Qed.

Lemma documents_are_first_occurrences_witness :
  corpus_contents corpus_repeat = ["cats are great"; "dogs"; "x"; "cats are great"]
  /\ map snd (snd (build_inverted_index run_cut [] corpus_repeat))
     = ["cats are great"; "dogs"; "x"].
Proof.
  split; [reflexivity|].
  rewrite (documents_are_first_occurrences run_cut [] corpus_repeat
             (fst (build_inverted_index run_cut [] corpus_repeat))
             (snd (build_inverted_index run_cut [] corpus_repeat)) eq_refl).
  reflexivity.
Defined.

Lemma stored_id_names_original_position_witness :
  In ("B-d2-0", "x") (snd (build_inverted_index run_cut [] corpus_repeat))
  /\ exists stock_code stock_data date news_list n,
       In (stock_code, stock_data) corpus_repeat
       /\ In (date, news_list) stock_data
       /\ nth_error news_list n = Some "x"
       /\ "B-d2-0" = make_doc_id stock_code date n.
Proof.
  assert (Hin : In ("B-d2-0", "x")
                   (snd (build_inverted_index run_cut [] corpus_repeat)))
    by (simpl; tauto).
  split; [exact Hin|].
  exact (stored_id_names_original_position run_cut [] corpus_repeat _ _
           "B-d2-0" "x" eq_refl Hin).
Defined.

Lemma index_keys_are_stored_tokens_witness :
  build_inverted_index run_cut [] corpus_pair = (index_pair, documents_pair)
  /\ NoDup (Dict.keys index_pair)
  /\ (Dict.mem index_pair "dogs" = true
      <-> exists id content,
            In (id, content) documents_pair
            /\ In "dogs" (preprocess run_cut [] content)).
Proof.
  destruct (index_keys_are_stored_tokens run_cut [] corpus_pair index_pair
              documents_pair eq_refl) as (Hnd & Hkey & _).
  split; [reflexivity|]. split; [exact Hnd|exact (Hkey "dogs")].
Defined.

Lemma dash_free_corpus_has_distinct_ids_witness :
  distinct_keys corpus_pair
  /\ dash_free_keys corpus_pair
  /\ NoDup (map fst documents_pair).
Proof.
  split; [exact corpus_pair_distinct_keys|].
  split; [exact corpus_pair_dash_free|].
  exact (dash_free_corpus_has_distinct_ids run_cut [] corpus_pair index_pair
           documents_pair corpus_pair_distinct_keys corpus_pair_dash_free eq_refl).
Defined.

Lemma search_clash_raises :
  snd (search run_cut [] "great" index_clash documents_clash)
  = Raise ZeroDivisionError.
Proof.
  rewrite search_eq. simpl snd.
  unfold search_result, scores_result.
  replace (preprocess run_cut [] "great") with ["great"] by reflexivity.
  cbn [Res.for_each]. unfold token_result, index_clash, documents_clash.
  cbn [Dict.get String.eqb Ascii.eqb Bool.eqb length].
  rewrite true_div_pos by discriminate.
  rewrite math_log_ratio by discriminate.
  reflexivity.
Qed.

Lemma built_search_raises_only_zero_division_witness :
  build_inverted_index run_cut [] corpus_clash = (index_clash, documents_clash)
  /\ snd (search run_cut [] "great" index_clash documents_clash)
     = Raise ZeroDivisionError
  /\ ZeroDivisionError = ZeroDivisionError.
Proof.
  split; [reflexivity|]. split; [exact search_clash_raises|].
  exact (built_search_raises_only_zero_division run_cut [] corpus_clash "great"
           index_clash documents_clash ZeroDivisionError eq_refl
           search_clash_raises).
Defined.

Lemma search_returns_documents_sharing_a_token_witness :
  build_inverted_index run_cut [] corpus_pair = (index_pair, documents_pair)
  /\ snd (search run_cut [] "great" index_pair documents_pair)
     = Ok [("A-d-0", (0 + tfidf_great_pair)%R)]
  /\ NoDup (map fst [("A-d-0", (0 + tfidf_great_pair)%R)])
  /\ (In "A-d-0" (map fst [("A-d-0", (0 + tfidf_great_pair)%R)])
      <-> exists content t,
            In ("A-d-0", content) documents_pair
            /\ In t (preprocess run_cut [] "great")
            /\ In t (preprocess run_cut [] content)).
Proof.
  assert (H : snd (search run_cut [] "great" index_pair documents_pair)
              = Ok [("A-d-0", (0 + tfidf_great_pair)%R)])
    by now rewrite search_defined_result.
  destruct (search_returns_documents_sharing_a_token run_cut [] corpus_pair
              "great" index_pair documents_pair _ eq_refl H) as [Hnd Hids].
  split; [reflexivity|]. split; [exact H|]. split; [exact Hnd|].
  exact (Hids "A-d-0").
Defined.

Lemma single_token_score_monotone_witness :
  exists results s1 s2,
    snd (search run_cut [] "cat"
           (fst (build_inverted_index run_cut [] corpus_cats))
           (snd (build_inverted_index run_cut [] corpus_cats))) = Ok results
    /\ In ("A-d-1", s1) results
    /\ In ("A-d-0", s2) results
    /\ Str.count "cat dog bird" "cat" <= Str.count "cat cat dog" "cat"
    /\ (s1 <= s2)%R.
Proof.
  set (index := fst (build_inverted_index run_cut [] corpus_cats)).
  set (documents := snd (build_inverted_index run_cut [] corpus_cats)).
  assert (Hbuild : build_inverted_index run_cut [] corpus_cats = (index, documents))
    by reflexivity.
  assert (Hnd : NoDup (map fst documents)).
  { repeat constructor; simpl; intuition discriminate. }
  destruct (search_returns_on_distinct_ids run_cut [] corpus_cats index documents
              "cat" Hbuild Hnd) as [_ [results Hres]].
  destruct (search_result_ids run_cut [] "cat" index documents results Hres)
    as [_ Hids].
  assert (H1 : In "A-d-1" (map fst results)) by (apply Hids; simpl; tauto).
  assert (H0 : In "A-d-0" (map fst results)) by (apply Hids; simpl; tauto).
  apply in_map_iff in H1, H0.
  destruct H1 as [[id1 s1] [E1 H1]], H0 as [[id2 s2] [E2 H0]].
  simpl in E1, E2. subst id1 id2.
  assert (Hcount : Str.count "cat dog bird" "cat" <= Str.count "cat cat dog" "cat")
    by (vm_compute; lia).
  exists results, s1, s2.
  split; [exact Hres|]. split; [exact H1|]. split; [exact H0|].
  split; [exact Hcount|].
  exact (single_token_score_monotone run_cut [] corpus_cats "cat" "cat" index
           documents results "A-d-1" s1 "A-d-0" s2 Hbuild Hnd eq_refl Hres H1 H0
           eq_refl Hcount).
Defined.

Lemma token_of_every_document_scores_zero_witness :
  NoDup (map fst documents_great)
  /\ preprocess run_cut [] "great" = ["great"]
  /\ snd (search run_cut [] "great"
            (fst (build_inverted_index run_cut [] corpus_great)) documents_great)
     = Ok [("A-2020-01-01-0", 0%R); ("A-2020-01-01-1", 0%R)].
Proof.
  assert (Hnd : NoDup (map fst documents_great)).
  { repeat constructor; simpl; intuition discriminate. }
  assert (Hall : forall id content,
            In (id, content) documents_great ->
            In "great" (preprocess run_cut [] content)).
  { intros id content [H|[H|[]]]; inversion H; subst; simpl; tauto. }
  split; [exact Hnd|]. split; [reflexivity|].
  exact (token_of_every_document_scores_zero run_cut [] corpus_great "great"
           "great" _ documents_great eq_refl Hnd eq_refl Hall).
Defined.

Lemma count_times_length_bounded_witness :
  "great" <> EmptyString
  /\ Str.count "great cats great" "great" * String.length "great"
     <= String.length "great cats great".
Proof.
  assert (Hne : "great" <> EmptyString) by discriminate.
  split; [exact Hne|].
  exact (count_times_length_bounded "great cats great" "great" Hne).
Defined.

Lemma loaded_stock_codes_are_json_stems_witness :
  load_all_data_from_dir load_path listing_stems "news"
  = Some [("a", JStr "news/a.b.json")]
  /\ NoDup (Dict.keys [("a", JStr "news/a.b.json")])
  /\ (In "a" (Dict.keys [("a", JStr "news/a.b.json")])
      <-> exists f, In f listing_stems /\ is_json_of "a" f = true).
Proof.
  destruct (loaded_stock_codes_are_json_stems load_path listing_stems "news"
              [("a", JStr "news/a.b.json")] eq_refl) as (Hnd & Hkeys & _).
  split; [reflexivity|]. split; [exact Hnd|exact (Hkeys "a")].
Defined.

Lemma last_listed_file_wins_witness :
  load_all_data_from_dir load_path listing_stems "news"
  = Some [("a", JStr "news/a.b.json")]
  /\ find_last (is_json_of "a") listing_stems = Some "a.b.json"
  /\ Dict.get [("a", JStr "news/a.b.json")] "a"
     = load_path (Text.path_join "news" "a.b.json").
Proof.
  split; [reflexivity|]. split; [reflexivity|].
  exact (last_listed_file_wins load_path listing_stems "news"
           [("a", JStr "news/a.b.json")] "a" "a.b.json" eq_refl eq_refl).
Defined.

Lemma split_recovers_id_parts_witness :
  no_dash "2330" = true
  /\ no_dash "20200101" = true
  /\ Text.split "-" (make_doc_id "2330" "20200101" 7) = ["2330"; "20200101"; "7"].
Proof.
  split; [reflexivity|]. split; [reflexivity|].
  exact (split_recovers_id_parts "2330" "20200101" 7 eq_refl eq_refl).
Defined.

Lemma display_raises_on_dash_witness :
  no_dash "2020-01-01" = false
  /\ display_results [("A-2020-01-01-0", 0%R); ("A-2020-01-01-1", 0%R)]
                     documents_great ["great"]
     = ([], Some (Builtin ValueError)).
Proof.
  split; [reflexivity|].
  exact (display_raises_on_dash "A" "2020-01-01" 0 0%R
           [("A-2020-01-01-1", 0%R)] documents_great ["great"]
           (or_intror eq_refl)).
Defined.

Lemma display_of_search_never_raises_witness :
  dash_free_keys corpus_pair
  /\ snd (search run_cut [] "great" index_pair documents_pair)
     = Ok [("A-d-0", (0 + tfidf_great_pair)%R)]
  /\ snd (display_results [("A-d-0", (0 + tfidf_great_pair)%R)]
                          documents_pair ["great"]) = None
  /\ length (fst (display_results [("A-d-0", (0 + tfidf_great_pair)%R)]
                                  documents_pair ["great"])) = 1.
Proof.
  assert (H : snd (search run_cut [] "great" index_pair documents_pair)
              = Ok [("A-d-0", (0 + tfidf_great_pair)%R)])
    by now rewrite search_defined_result.
  split; [exact corpus_pair_dash_free|]. split; [exact H|].
  exact (display_of_search_never_raises run_cut [] corpus_pair "great"
           index_pair documents_pair _ ["great"] corpus_pair_dash_free
           eq_refl H).
Defined.

(** * The score of a returned document *)

Section ScoreOfDocument.

Variable cut : string -> list string.
Variable stopwords : list string.

Notation preprocess := (preprocess cut stopwords).
Notation search := (search cut stopwords).
Notation build_inverted_index := (build_inverted_index cut stopwords).

Lemma Rsum_filter (f : string -> R) (p : string -> bool) l :
  Rsum (map (fun t => if p t then f t else 0%R) l) = Rsum (map f (filter p l)).
Proof.
  induction l as [|t l IH]; simpl; auto.
  destruct (p t); simpl; rewrite IH; ring.
Qed.

(** C2, as the code has it. For the index and the document list that
    [build_inverted_index] returns, when the ids of the document list are
    pairwise distinct, and for every query: each pair (id, score) that
    [search] returns is the id of one stored document, and the score is the
    sum, over the query tokens t that are keys of the index and whose
    postings list holds the id, of tf * idf, with idf = ln (N / df), N the
    length of the document list and df the length of t's postings list, and
    tf = (occurrences of t as a substring of the content of that
    document) / (number of tokens of that content).  A query token whose
    postings list does not hold the id adds nothing, even when it occurs in
    the content as a substring. *)
Theorem search_scores_are_tfidf_sums data query index documents results id s :
  build_inverted_index data = (index, documents) ->
  NoDup (map fst documents) ->
  snd (search query index documents) = Ok results ->
  In (id, s) results ->
  exists content,
    In (id, content) documents
    /\ s = Rsum (map (fun t =>
                        (INR (Str.count content t)
                         / INR (length (preprocess content))
                         * ln (INR (length documents)
                               / INR (length (postings_of index t))))%R)
                     (filter (fun t => Dict.mem index t
                                       && Str.mem id (postings_of index t))
                             (preprocess query))).
Proof.
  intros Hbuild Hnd Hres Hin.
  destruct (built_facts _ _ _ _ _ Hbuild) as (Hidx & _ & _).
  destruct (search_result_ids _ _ _ _ _ _ Hres) as [_ Hids].
  assert (Hdoc : exists content, In (id, content) documents).
  { apply (in_map fst) in Hin. apply Hids, in_flat_map in Hin.
    destruct Hin as [t [_ Hpost]].
    rewrite Hidx, postings_of_index_of_documents in Hpost.
    apply documents_with_in in Hpost. destruct Hpost as [content [Hc _]].
    now exists content. }
  destruct Hdoc as [content Hdoc]. exists content. split; auto.
  assert (Hcontent : content_of documents id = content).
  { unfold content_of. now rewrite (first_content_distinct _ _ _ Hnd Hdoc). }
  rewrite (search_scores _ _ _ _ _ _ _ _ Hres Hin).
  unfold tfidf_score, matching_tokens.
  rewrite (map_ext _ _ (fun t => token_contribution_distinct_ids
                                   cut stopwords data index documents id t
                                   Hbuild Hnd)).
  rewrite Rsum_filter, filter_filter.
  unfold term_frequency, inverse_document_frequency. now rewrite Hcontent.
Qed.

End ScoreOfDocument.

Lemma ln_3_pos : (0 < ln (INR 3 / INR 1))%R.
Proof.
  simpl INR. replace ((1 + 1 + 1) / 1)%R with 3%R by field.
  rewrite <- ln_1. apply ln_increasing; lra.
Qed.

Lemma search_great_cat :
  snd (search run_cut [] "great cat" index_substring documents_substring)
  = Ok [("A-d-1", (0 + tfidf_great_substring)%R);
        ("A-d-0", (0 + tfidf_cat_substring)%R)].
Proof.
  rewrite search_defined_result by reflexivity.
  replace (add_all [] (contributions run_cut [] "great cat" index_substring
                         documents_substring))
    with [("A-d-1", (0 + tfidf_great_substring)%R);
          ("A-d-0", (0 + tfidf_cat_substring)%R)] by reflexivity.
  cbn [sorted_desc insert_desc snd].
  assert (Rltb (0 + tfidf_great_substring) (0 + tfidf_cat_substring) = false) as ->.
  { apply Rltb_false. unfold tfidf_great_substring, tfidf_cat_substring.
    pose proof ln_3_pos. simpl INR in *.
    replace (1 / 1)%R with 1%R by field. lra. }
  reflexivity.
Qed.

(** C2, as stated, fails. In [corpus_substring] the ids are pairwise
    distinct, and the query "great cat" has two tokens that are keys of the
    index.  The first text, "greatness cat", is returned with tf * idf of
    "cat" alone: "great" is a substring of it but not one of its tokens, so
    the postings list of "great" does not hold its id.  The sum over all
    the query tokens that are keys adds tf * idf of "great" as well. *)
Example substring_outside_postings_adds_nothing :
  build_inverted_index run_cut [] corpus_substring
  = (index_substring, documents_substring)
  /\ NoDup (map fst documents_substring)
  /\ matching_tokens run_cut [] index_substring "great cat" = ["great"; "cat"]
  /\ Str.count "greatness cat" "great" = 1
  /\ exists s,
       snd (search run_cut [] "great cat" index_substring documents_substring)
       = Ok [("A-d-1", (0 + tfidf_great_substring)%R); ("A-d-0", s)]
       /\ s <> tfidf_score_every_key run_cut [] "great cat" index_substring
                 documents_substring "A-d-0".
Proof.
  split; [reflexivity|]. split.
  { repeat constructor; simpl; intuition discriminate. }
  split; [reflexivity|]. split; [reflexivity|].
  exists (0 + tfidf_cat_substring)%R. split; [exact search_great_cat|].
  replace (tfidf_score_every_key _ _ _ _ _ _)
    with (tfidf_cat_substring + (tfidf_cat_substring + 0))%R by reflexivity.
  assert (0 < tfidf_cat_substring)%R; [|lra].
  unfold tfidf_cat_substring. pose proof ln_3_pos. simpl INR in *.
  apply Rmult_lt_0_compat; lra.
Qed.

Lemma search_scores_are_tfidf_sums_witness :
  build_inverted_index run_cut [] corpus_substring
  = (index_substring, documents_substring)
  /\ NoDup (map fst documents_substring)
  /\ snd (search run_cut [] "great cat" index_substring documents_substring)
     = Ok [("A-d-1", (0 + tfidf_great_substring)%R);
           ("A-d-0", (0 + tfidf_cat_substring)%R)]
  /\ exists content,
       In ("A-d-1", content) documents_substring
       /\ (0 + tfidf_great_substring)%R
          = Rsum (map (fun t =>
                         (INR (Str.count content t)
                          / INR (length (preprocess run_cut [] content))
                          * ln (INR (length documents_substring)
                                / INR (length (postings_of index_substring t))))%R)
                      ["great"]).
Proof.
  assert (Hnd : NoDup (map fst documents_substring)).
  { repeat constructor; simpl; intuition discriminate. }
  split; [reflexivity|]. split; [exact Hnd|]. split; [exact search_great_cat|].
  exact (search_scores_are_tfidf_sums run_cut [] corpus_substring "great cat"
           index_substring documents_substring _ "A-d-1" _ eq_refl Hnd
           search_great_cat (or_introl eq_refl)).
Defined.

Lemma loading_fails_iff_listing_or_json_fails_witness :
  listdir_news "prices" = None
  /\ load_all_data_from listdir_news load_path "prices" = None
  /\ load_all_data_from listdir_news load_path "news"
     = Some [("a", JStr "news/a.b.json")].
Proof.
  split; [reflexivity|]. split; [|reflexivity].
  apply (loading_fails_iff_listing_or_json_fails load_path listdir_news "prices").
  left. reflexivity.
Defined.
